(** * Retry with back-off

    A shallow embedding of the Go package [backoff]:
    - [curves.go]: the delay curves [Default], [Logistic] and [Linear];
    - [backoff.go]: the record [Config], the entry point [Backoff] and the
      retry loop [backoff] that it runs on a goroutine of its own.

    Numbers.  Go's [int] is modelled by [Z] with the 64-bit wrap-around
    written out ([Int64.wrap]).  Go's [float64] appears twice:
    - exactly, as the kernel's binary64 numbers ([PrimFloat.float]), in
      module [F64] and in the retry loop's delay computation; [math.Exp],
      which the kernel does not have, is a parameter of the curves there;
    - idealised as real numbers ([R]) in module [Curves], where the curves
      are the functions of real analysis. *)

From Stdlib Require Import String ZArith List Bool Lia Floats Reals Lra.
Import ListNotations.

Local Open Scope Z_scope.

(** ** Go's [int] on a 64-bit target *)

Module Int64.

Definition min_int : Z := - 2 ^ 63.
Definition max_int : Z := 2 ^ 63 - 1.

Definition in_range (z : Z) : bool := (min_int <=? z) && (z <=? max_int).

(** Two's-complement wrap-around of an arithmetic result. *)
Definition wrap (z : Z) : Z := (z + 2 ^ 63) mod 2 ^ 64 - 2 ^ 63.

(** [attempt++] *)
Definition incr (z : Z) : Z := wrap (z + 1).

End Int64.

(** ** Go's [float64], exactly (IEEE 754 binary64) *)

Module F64.

Local Open Scope float_scope.

(** [float64(n)] for an [int] [n]: the nearest binary64 number.  The
    kernel's conversion takes an unsigned 63-bit integer, so the sign is
    handled here and [- 2^63], whose magnitude does not fit, is special. *)
Definition float_of_int (n : Z) : float :=
  if (n =? Int64.min_int)%Z then - 9223372036854775808
  else if (n <? 0)%Z then - of_uint63 (Uint63.of_Z (- n))
  else of_uint63 (Uint63.of_Z n).

(** The integer part of a finite binary64 number, towards zero. *)
Definition truncate (f : float) : option Z :=
  match Prim2SF f with
  | S754_zero _ => Some 0%Z
  | S754_finite s m e =>
      let mag := if (0 <=? e)%Z then (Z.pos m * 2 ^ e)%Z
                 else (Z.pos m / 2 ^ (- e))%Z in
      Some (if s then (- mag)%Z else mag)
  | S754_infinity _ | S754_nan => None
  end.

(** [int64(f)], as in [time.Duration(f)]: the fraction is discarded.  When
    the value does not fit (or [f] is an infinity or a NaN) the language
    leaves the result to the implementation: [None]. *)
Definition int64_of_float (f : float) : option Z :=
  match truncate f with
  | Some z => if Int64.in_range z then Some z else None
  | None => None
  end.

(** A number that is neither an infinity nor a NaN. *)
Definition finite (f : float) : bool :=
  match Prim2SF f with
  | S754_zero _ | S754_finite _ _ _ => true
  | S754_infinity _ | S754_nan => false
  end.

(** [math.E], the binary64 number nearest to e (2.718281828459045). *)
Definition E : float := 0x1.5bf0a8b145769p+1.

(** *** curves.go, exactly

    [math.Exp] is not among the kernel's operations on binary64 numbers: the
    curves take it as a parameter. *)

Section WithExp.

Variable Exp : float -> float.

(** [L / (1 + math.E*math.Exp(-k*(x-x0)))] *)
Definition Logistic (x k L x0 : float) : float :=
  L / (1 + E * Exp (- k * (x - x0))).

Definition Default (attempts : Z) (limit : float) : float -> float :=
  let incline := 1 / (5 / float_of_int attempts) in
  fun x => Logistic x incline limit (float_of_int attempts).

End WithExp.

(** The steepness computed by the first line of [Default]. *)
Definition Default_incline (attempts : Z) : float :=
  1 / (5 / float_of_int attempts).

Definition Linear (x mul : float) : float := x * mul.

End F64.

(** ** curves.go, over the reals

    The same three functions with [float64] read as the real numbers, [+],
    [*], [/] and [math.Exp] as the exact operations, and [math.E] as e. *)

Module Curves.

Local Open Scope R_scope.

(** [math.E] *)
Definition E : R := exp 1.

(** [L / (1 + math.E*math.Exp(-k*(x-x0)))] *)
Definition Logistic (x k L x0 : R) : R :=
  L / (1 + E * exp (- k * (x - x0))).

Definition Default (attempts : Z) (limit : R) : R -> R :=
  let incline := 1 / (5 / IZR attempts) in
  fun x => Logistic x incline limit (IZR attempts).

Definition Linear (x mul : R) : R := x * mul.

End Curves.

(** ** package time *)

Module Time.

(** [time.Second], in nanoseconds, the unit of [time.Duration]. *)
Definition Second : Z := 1000000000.

(** [time.Duration(f) * time.Second]: the conversion to the integer type
    [Duration] comes first, the (wrapping) multiplication second. *)
Definition seconds (f : float) : option Z :=
  match F64.int64_of_float f with
  | Some d => Some (Int64.wrap (d * Second))
  | None => None
  end.

End Time.

(** ** backoff.go *)

(** How a call ends.  Besides returning, Go code can panic
    ([make(chan error, n)] with [n < 0]) or block for ever (a send on a full
    channel that nobody reads).  [OutOfFuel] belongs to the model only: the
    retry loop is unbounded when [MaxAttempts] is [0], so it is run with a
    fuel, one unit per evaluation of the loop condition. *)
Inductive outcome (A : Type) : Type :=
| Returned (a : A)
| Panicked
| Deadlocked
| OutOfFuel.

Arguments Returned {A} a.
Arguments Panicked {A}.
Arguments Deadlocked {A}.
Arguments OutOfFuel {A}.

Section Engine.

(** [T] is the result type of the retried function, [E] the type of the
    non-nil [error] values, and [W] whatever state the caller's closures
    ([Func], [LogFailure]) read and update. *)
Context {T E W : Type}.

(** [ErrInvalidConfig] is declared in a file of the package that is not
    among the sources at hand; it is some fixed error value. *)
Variable ErrInvalidConfig : E.

(** A [*T] is [option T] and an [error] is [option E], [None] being [nil];
    so is a function value that may be [nil]. *)
Record Config : Type := {
  Curve : option (float -> float);
  Func : option (W -> (option T * option E) * W);
  MaxAttempts : Z;
  LogFailure : option (E -> W -> W);
  Result : T
}.

(** What one run does, in order: the timer waits (in nanoseconds, [None]
    when the conversion to [Duration] is left to the implementation), the
    calls of [Func] with what they returned, the calls of [LogFailure] and
    the sends on the error channel. *)
Inductive event : Type :=
| EvSleep (ns : option Z)
| EvCall (res : option T) (err : option E)
| EvLog (err : E)
| EvSend (err : E).

Record state : Type := { world : W; trace : list event }.

Definition emit (ev : event) (st : state) : state :=
  {| world := world st; trace := trace st ++ [ev] |}.

(** A buffered channel of errors: its capacity and the values waiting in
    it, oldest first.  A nil channel is [None]. *)
Record chan : Type := { cap : Z; buf : list E }.

(** [make(chan error, n)] panics when [n] is negative.  (It also fails when
    the buffer cannot be allocated; memory is not part of this model.) *)
Definition make_chan (n : Z) : option chan :=
  if n <? 0 then None else Some {| cap := n; buf := [] |}.

(** [c <- e] with no receiver around: it goes through while the buffer has
    room and blocks otherwise ([None]). *)
Definition send (c : chan) (e : E) : option chan :=
  if Z.of_nat (length (buf c)) <? cap c
  then Some {| cap := cap c; buf := buf c ++ [e] |}
  else None.

(** Lines 74-81 of the loop body, [if err != nil { ... }]: [logFailure] is
    called if there is one, and the error is sent if [attempts != 0 &&
    errors != nil].  [None] when the send blocks. *)
Definition report (attempts : Z) (errors : option chan)
    (logFailure : option (E -> W -> W)) (err : option E) (st : state)
    : option (option chan * state) :=
  match err with
  | None => Some (errors, st)
  | Some e =>
      let st1 :=
        match logFailure with
        | Some lf => emit (EvLog e) {| world := lf e (world st); trace := trace st |}
        | None => st
        end in
      match negb (attempts =? 0), errors with
      | true, Some c =>
          match send c e with
          | Some c' => Some (Some c', emit (EvSend e) st1)
          | None => None
          end
      | _, _ => Some (errors, st1)
      end
  end.

(** The goroutine [backoff].  [res] and [attempt] are its two local
    variables; the value it returns is what it sends on [result] (a
    channel with room for one value, so that send never blocks), together
    with the error channel and the state it leaves behind. *)
Fixpoint backoff (fuel : nat) (curve : float -> float)
    (fn : W -> (option T * option E) * W) (attempts : Z)
    (errors : option chan) (logFailure : option (E -> W -> W))
    (res : option T) (attempt : Z) (st : state)
    : outcome (option T * option chan * state) :=
  match fuel with
  | O => OutOfFuel
  | S fuel' =>
      if (attempts =? 0) || (attempt <? attempts) then
        let st1 := emit (EvSleep (Time.seconds (curve (F64.float_of_int attempt)))) st in
        let '((res', err), w') := fn (world st1) in
        let st2 := emit (EvCall res' err) {| world := w'; trace := trace st1 |} in
        match report attempts errors logFailure err st2 with
        | None => Deadlocked
        | Some (errors', st3) =>
            match res' with
            | Some _ => Returned (res', errors', st3)
            | None =>
                backoff fuel' curve fn attempts errors' logFailure res'
                  (Int64.incr attempt) st3
            end
        end
      else Returned (res, errors, st)
  end.

(** [for len(errorChannel) > 0 { err := <-errorChannel; errorList =
    append(errorList, err) }]; the length of a nil channel is [0]. *)
Fixpoint drain (pending : list E) (errorList : list E) : list E :=
  match pending with
  | [] => errorList
  | err :: pending' => drain pending' (errorList ++ [err])
  end.

Definition receive_all (errorChannel : option chan) (errorList : list E) : list E :=
  match errorChannel with
  | Some c => drain (buf c) errorList
  | None => errorList
  end.

(** [Backoff].  The caller waits on [result] until the goroutine has sent
    its value, so the goroutine's run comes first and the rest of
    [Backoff] after it; if the goroutine never sends, [Backoff] never
    returns.  The returned slice is [None] for [nil]. *)
Definition Backoff (fuel : nat) (conf : Config) (w : W)
    : outcome (option T * option (list E) * state) :=
  let st0 := {| world := w; trace := [] |} in
  match Curve conf, Func conf with
  | Some curve, Some fn =>
      let errorList : list E := [] in
      match (if negb (MaxAttempts conf =? 0)
             then option_map Some (make_chan (MaxAttempts conf))
             else Some None) with
      | None => Panicked
      | Some errorChannel =>
          match backoff fuel curve fn (MaxAttempts conf) errorChannel
                  (LogFailure conf) None 0 st0 with
          | Returned (Some r, _, st) => Returned (Some r, None, st)
          | Returned (None, errorChannel', st) =>
              Returned (None, Some (receive_all errorChannel' errorList), st)
          | Panicked => Panicked
          | Deadlocked => Deadlocked
          | OutOfFuel => OutOfFuel
          end
      end
  | _, _ => Returned (None, Some [ErrInvalidConfig], st0)
  end.

(** *** Reading a trace *)

(** How many times [Func] was called. *)
Fixpoint invocations (tr : list event) : nat :=
  match tr with
  | [] => O
  | EvCall _ _ :: tr' => S (invocations tr')
  | _ :: tr' => invocations tr'
  end.

(** The errors [Func] returned, in call order. *)
Fixpoint call_errors (tr : list event) : list E :=
  match tr with
  | [] => []
  | EvCall _ (Some e) :: tr' => e :: call_errors tr'
  | _ :: tr' => call_errors tr'
  end.

(** The errors handed to [LogFailure], in call order. *)
Fixpoint logged (tr : list event) : list E :=
  match tr with
  | [] => []
  | EvLog e :: tr' => e :: logged tr'
  | _ :: tr' => logged tr'
  end.

(** The errors sent on the error channel, in order. *)
Fixpoint sent (tr : list event) : list E :=
  match tr with
  | [] => []
  | EvSend e :: tr' => e :: sent tr'
  | _ :: tr' => sent tr'
  end.

(** The waits, in order. *)
Fixpoint sleeps (tr : list event) : list (option Z) :=
  match tr with
  | [] => []
  | EvSleep d :: tr' => d :: sleeps tr'
  | _ :: tr' => sleeps tr'
  end.

(** *** Runs of failing attempts

    The behaviour of a retried function is described along the run: the
    world the next call sees is the one the previous call (and the
    [LogFailure] that followed it) left. *)

Section Runs.

Variable fn : W -> (option T * option E) * W.
Variable logFailure : option (E -> W -> W).

(** The world after [logFailure], if there is one, has seen [e]. *)
Definition after_failure (e : E) (w : W) : W :=
  match logFailure with
  | Some lf => lf e w
  | None => w
  end.

(** [fails es w w']: called again and again from world [w], [fn] returns
    no result and the errors [es], one per call, and leaves world [w']. *)
Inductive fails : list E -> W -> W -> Prop :=
| fails_nil (w : W) : fails [] w w
| fails_cons (e : E) (es : list E) (w w1 w' : W) :
    fn w = ((None, Some e), w1) ->
    fails es (after_failure e w1) w' ->
    fails (e :: es) w w'.

(** [fn] returns an error, and no result, whenever it is called. *)
Definition always_errors : Prop :=
  forall w : W, exists (e : E) (w1 : W), fn w = ((None, Some e), w1).

(** The value of [attempt] after [n] more increments. *)
Fixpoint advance (n : nat) (attempt : Z) : Z :=
  match n with
  | O => attempt
  | S n' => advance n' (Int64.incr attempt)
  end.

(** The values of [attempt] in [n] successive turns of the loop. *)
Fixpoint attempt_indices (n : nat) (attempt : Z) : list Z :=
  match n with
  | O => []
  | S n' => attempt :: attempt_indices n' (Int64.incr attempt)
  end.

Definition log_events (e : E) : list event :=
  match logFailure with
  | Some _ => [EvLog e]
  | None => []
  end.

(** The loop's test [attempts != 0 && errors != nil]. *)
Definition sending (attempts : Z) (errors : option chan) : bool :=
  negb (attempts =? 0) && match errors with Some _ => true | None => false end.

Definition send_events (sends : bool) (e : E) : list event :=
  if sends then [EvSend e] else [].

(** The errors of one call: at most one. *)
Definition error_list (err : option E) : list E :=
  match err with
  | Some e => [e]
  | None => []
  end.

(** What [report] adds to the trace. *)
Definition report_events (sends : bool) (err : option E) : list event :=
  match err with
  | Some e => log_events e ++ send_events sends e
  | None => []
  end.

(** The channel once the errors [es] have been sent on it (when the loop
    sends at all). *)
Definition errors_after (attempts : Z) (errors : option chan) (es : list E)
    : option chan :=
  match errors with
  | Some c =>
      if negb (attempts =? 0)
      then Some {| cap := cap c; buf := buf c ++ es |}
      else errors
  | None => None
  end.

(** What the loop does during failing attempts that return [es], the
    first of them with index [attempt]. *)
Fixpoint failure_events (curve : float -> float) (sends : bool)
    (attempt : Z) (es : list E) : list event :=
  match es with
  | [] => []
  | e :: es' =>
      EvSleep (Time.seconds (curve (F64.float_of_int attempt)))
      :: EvCall None (Some e)
      :: log_events e ++ send_events sends e
      ++ failure_events curve sends (Int64.incr attempt) es'
  end.

End Runs.

(** The error channel [Backoff] hands to the goroutine, when [make] did not
    panic: nil when [MaxAttempts] is [0]. *)
Definition initial_channel (attempts : Z) : option chan :=
  if attempts =? 0 then None else Some {| cap := attempts; buf := [] |}.

(** The slice of a result, [nil] having no elements. *)
Definition elements (errs : option (list E)) : list E :=
  match errs with
  | Some l => l
  | None => []
  end.

(** What the calls of [Func] returned, in call order. *)
Fixpoint calls (tr : list event) : list (option T * option E) :=
  match tr with
  | [] => []
  | EvCall res err :: tr' => (res, err) :: calls tr'
  | _ :: tr' => calls tr'
  end.

(** What the loop relies on at the head of each turn.  With a channel
    (bounded mode): [attempt] has not passed [attempts], and the channel,
    made for [attempts] errors, holds at most one error per past attempt.
    Without one: [attempts] is [0]. *)
Definition loop_invariant (attempts : Z) (errors : option chan) (attempt : Z)
    : Prop :=
  match errors with
  | Some c =>
      attempts <> 0 /\ 0 <= attempt <= attempts /\ attempts <= Int64.max_int
      /\ cap c = attempts /\ Z.of_nat (length (buf c)) <= attempt
  | None => attempts = 0
  end.

(** The wait before the attempt of index [i]. *)
Definition wait_before (curve : float -> float) (i : Z) : option Z :=
  Time.seconds (curve (F64.float_of_int i)).

(** How a finished run of the loop reads: what it sent on [result] ([r]),
    the channel it left ([errors']) and the events it added ([tr]), for a
    loop started at [attempt] with the channel [errors]. *)
Record run_shape (curve : float -> float)
    (fn : W -> (option T * option E) * W) (attempts : Z)
    (errors : option chan) (logFailure : option (E -> W -> W)) (attempt : Z)
    (r : option T) (errors' : option chan) (tr : list event) : Prop := {
  (** one wait before each call, computed from the index of the attempt *)
  shape_sleeps :
    sleeps tr = map (wait_before curve) (attempt_indices (invocations tr) attempt);
  (** every error goes to [logFailure], if there is one *)
  shape_logged :
    logged tr = match logFailure with Some _ => call_errors tr | None => [] end;
  (** every error is sent on the channel, if the loop sends *)
  shape_sent :
    sent tr = if sending attempts errors then call_errors tr else [];
  shape_channel :
    errors' = errors_after attempts errors (call_errors tr);
  (** the recorded calls are calls of [fn] *)
  shape_calls :
    Forall (fun o => exists w : W, fst (fn w) = o) (calls tr);
  (** the loop ends at the first result, or when the attempts are used up *)
  shape_end :
    (exists (v : T) (n : nat),
        r = Some v /\ map fst (calls tr) = repeat None n ++ [Some v])
    \/ (r = None /\ map fst (calls tr) = repeat None (invocations tr)
        /\ attempts <> 0 /\ attempt + Z.of_nat (invocations tr) = attempts)
}.

End Engine.

(** ** Concrete runs

    The result type is [Z], errors are strings, and the world is the number
    of calls of the retried function so far. *)

Module Scenario.

Definition ErrInvalidConfig : string := "invalid config"%string.

Definition V : Z := 42.

(** The error of the call number [n] (from [0]): e1, e2, e3, and e after
    that. *)
Definition error_of_call (n : nat) : string :=
  nth n ["e1"; "e2"; "e3"]%string "e"%string.

(** A function that fails every time. *)
Definition always_failing (n : nat) : (option Z * option string) * nat :=
  ((None, Some (error_of_call n)), S n).

(** A function that fails [k] times and then returns [V]. *)
Definition failing_until (k : nat) (n : nat) : (option Z * option string) * nat :=
  (if (n <? k)%nat then (None, Some (error_of_call n)) else (Some V, None), S n).


(** A [LogFailure] that leaves the world alone. *)
Definition log (_ : string) (n : nat) : nat := n.

(** Half a second more at each attempt: [Linear(x, 0.5)]. *)
Definition half_steps (x : float) : float := F64.Linear x 0.5.

Definition config (fn : nat -> (option Z * option string) * nat)
    (maxAttempts : Z) : Config :=
  {| Curve := Some half_steps;
     Func := Some fn;
     MaxAttempts := maxAttempts;
     LogFailure := Some log;
     Result := 0 |}.

(** Scenario A: three attempts allowed, all three fail. *)
Definition scenario_A : Config := config always_failing 3.

(** Scenario B: no bound, two failures, then [V]. *)
Definition scenario_B : Config := config (failing_until 2) 0.

(** The state scenario B ends in. *)
Definition scenario_B_final : @state Z string nat :=
  {| world := 3%nat;
     trace := [EvSleep (Some 0); EvCall None (Some "e1"%string);
               EvLog "e1"%string;
               EvSleep (Some 0); EvCall None (Some "e2"%string);
               EvLog "e2"%string;
               EvSleep (Some 1000000000); EvCall (Some V) None] |}.

(** No function to retry. *)
Definition no_func : Config :=
  {| Curve := Some half_steps;
     Func := @None (nat -> (option Z * option string) * nat);
     MaxAttempts := 3;
     LogFailure := None;
     Result := 0 |}.


(** Four attempts allowed, all four fail. *)
Definition four_failures : Config := config always_failing 4.

(** The state scenario A ends in. *)
Definition scenario_A_final : @state Z string nat :=
  {| world := 3%nat;
     trace := [EvSleep (Some 0); EvCall None (Some "e1"%string);
               EvLog "e1"%string; EvSend "e1"%string;
               EvSleep (Some 0); EvCall None (Some "e2"%string);
               EvLog "e2"%string; EvSend "e2"%string;
               EvSleep (Some 1000000000); EvCall None (Some "e3"%string);
               EvLog "e3"%string; EvSend "e3"%string] |}.

(** A function that returns neither a result nor an error. *)
Definition silent (n : nat) : (option Z * option string) * nat :=
  ((None, None), S n).

(** Three attempts allowed of a function that returns nothing. *)
Definition three_silent : Config := config silent 3.

(** No bound, and a function that fails every time. *)
Definition hopeless : Config := config always_failing 0.

(** A negative number of attempts. *)
Definition negative_attempts : Config := config always_failing (-1).

End Scenario.

(** * Properties *)

(** ** Integers *)

Lemma Int64_wrap_in_range (z : Z) : Int64.in_range z = true -> Int64.wrap z = z.
Proof.
  unfold Int64.in_range, Int64.wrap, Int64.min_int, Int64.max_int.
  rewrite andb_true_iff, !Z.leb_le. intros [Hlo Hhi].
  rewrite Z.mod_small; lia.
Qed.

Lemma Int64_incr_small (z : Z) :
  0 <= z -> z < Int64.max_int -> Int64.incr z = z + 1.
Proof.
  intros H0 H1. unfold Int64.incr. apply Int64_wrap_in_range.
  unfold Int64.in_range, Int64.min_int, Int64.max_int in *.
  rewrite andb_true_iff, !Z.leb_le. lia.
Qed.

Lemma advance_small (n : nat) (attempt : Z) :
  0 <= attempt -> attempt + Z.of_nat n <= Int64.max_int ->
  advance n attempt = attempt + Z.of_nat n.
Proof.
  revert attempt. induction n as [|n IH]; intros attempt H0 H1; simpl advance.
  - lia.
  - rewrite Int64_incr_small by lia. rewrite IH by lia. lia.
Qed.

(** ** Durations *)

(** The timer is set to a whole number of seconds: the integer part of the
    curve's value. *)
Lemma seconds_whole (f : float) (d : Z) :
  F64.int64_of_float f = Some d ->
  Int64.in_range (d * Time.Second) = true ->
  Time.seconds f = Some (d * Time.Second).
Proof.
  intros Hd Hr. unfold Time.seconds. rewrite Hd.
  now rewrite Int64_wrap_in_range.
Qed.

Example seconds_of_a_half : Time.seconds 0.5 = Some 0.
Proof. reflexivity. Qed.

Example seconds_of_ten : Time.seconds 10 = Some 10000000000.
Proof. reflexivity. Qed.

(** ** The steepness of [Default] in binary64 *)

Example Default_incline_5 : F64.Default_incline 5 = 1%float.
Proof. reflexivity. Qed.

(** The two divisions of [1 / (5 / n)] round: at [n = 9] the result
    (1.7999999999999998) is one unit in the last place below the quotient
    [9 / 5] (1.8). *)
Remark Default_incline_rounds :
  F64.Default_incline 9 = 0x1.cccccccccccccp+0%float
  /\ (F64.float_of_int 9 / 5)%float = 0x1.ccccccccccccdp+0%float.
Proof. split; reflexivity. Qed.

(** ** The logistic curve at its midpoint, in binary64 *)

Section Binary64.

Local Open Scope float_scope.

Lemma finite_sub_diag (x : float) : F64.finite x = true -> x - x = 0.
Proof.
  unfold F64.finite. intros Hx. apply Prim2SF_inj. rewrite sub_spec.
  unfold SF64sub, SFsub.
  destruct (Prim2SF x) as [[|]|s| |s m e]; try discriminate Hx; try reflexivity.
  cbv zeta. rewrite Z.sub_diag. reflexivity.
Qed.

Lemma finite_opp_mul_zero (k : float) :
  F64.finite k = true -> - k * 0 = 0 \/ - k * 0 = - 0.
Proof.
  unfold F64.finite. intros Hk.
  assert (H : exists b, Prim2SF (- k * 0) = S754_zero b).
  { rewrite mul_spec, opp_spec. unfold SF64mul, SFmul, SFopp.
    destruct (Prim2SF k) as [s|s| |s m e]; try discriminate Hk;
      eexists; reflexivity. }
  destruct H as [b Hb]. rewrite <- (SF2Prim_Prim2SF (- k * 0)), Hb.
  destruct b; [right|left]; reflexivity.
Qed.

(** The identity of C9 as the code computes it: for finite [k] and [x0],
    and a [math.Exp] that is 1 at both zeros, [Logistic(x0, k, L, x0)] is
    the binary64 quotient [L / (1 + math.E)]. *)
Lemma Logistic_midpoint_binary64 (Exp : float -> float) (k L x0 : float) :
  Exp 0 = 1 -> Exp (- 0) = 1 ->
  F64.finite k = true -> F64.finite x0 = true ->
  F64.Logistic Exp x0 k L x0 = L / (1 + F64.E).
Proof.
  intros Hp Hm Hk Hx. unfold F64.Logistic.
  rewrite (finite_sub_diag x0 Hx).
  destruct (finite_opp_mul_zero k Hk) as [-> | ->]; rewrite ?Hp, ?Hm; reflexivity.
Qed.

(** With steepness [0] and midpoint [0] the curve is flat at [L / (1 +
    math.E)], at every finite [x]. *)
Lemma Logistic_flat_binary64 (Exp : float -> float) (x L : float) :
  Exp 0 = 1 -> Exp (- 0) = 1 ->
  F64.finite x = true ->
  F64.Logistic Exp x 0 L 0 = L / (1 + F64.E).
Proof.
  intros Hp Hm Hx. unfold F64.Logistic.
  assert (H : exists b, Prim2SF (- 0 * (x - 0)) = S754_zero b).
  { rewrite mul_spec, sub_spec. unfold F64.finite in Hx.
    unfold SF64mul, SFmul, SF64sub, SFsub.
    destruct (Prim2SF x) as [[|]|s| |s m e]; try discriminate Hx;
      eexists; reflexivity. }
  destruct H as [b Hb].
  assert (Hz : - 0 * (x - 0) = 0 \/ - 0 * (x - 0) = - 0).
  { rewrite <- (SF2Prim_Prim2SF (- 0 * (x - 0))), Hb.
    destruct b; [right|left]; reflexivity. }
  destruct Hz as [-> | ->]; rewrite ?Hp, ?Hm; reflexivity.
Qed.

Lemma Default_incline_eq (Exp : float -> float) (attempts : Z) (limit x : float) :
  F64.Default Exp attempts limit x =
  F64.Logistic Exp x (F64.Default_incline attempts) limit (F64.float_of_int attempts).
Proof. reflexivity. Qed.

End Binary64.

(** ** The retry loop *)

Section EngineFacts.

Context {T E W : Type}.
Variable ErrInvalidConfig : E.

Local Abbreviation Config := (@Config T E W).
Local Abbreviation state := (@state T E W).
Local Abbreviation event := (@event T E).
Local Abbreviation failure_events := (@failure_events T E W).
Local Abbreviation log_events := (@log_events T E W).
Local Abbreviation send_events := (@send_events T E).
Local Abbreviation report_events := (@report_events T E W).

Implicit Types (fn : W -> (option T * option E) * W)
  (logFailure : option (E -> W -> W)) (curve : float -> float)
  (errors : option (@chan E)) (st : state) (es : list E).

(** One turn of the loop, as an equation. *)
Lemma backoff_step fuel curve fn attempts errors logFailure res attempt st :
  backoff (S fuel) curve fn attempts errors logFailure res attempt st =
  if (attempts =? 0) || (attempt <? attempts) then
    let st1 := emit (EvSleep (Time.seconds (curve (F64.float_of_int attempt)))) st in
    let '((res', err), w') := fn (world st1) in
    let st2 := emit (EvCall res' err) {| world := w'; trace := trace st1 |} in
    match report attempts errors logFailure err st2 with
    | None => Deadlocked
    | Some (errors', st3) =>
        match res' with
        | Some _ => Returned (res', errors', st3)
        | None =>
            backoff fuel curve fn attempts errors' logFailure res'
              (Int64.incr attempt) st3
        end
    end
  else Returned (res, errors, st).
Proof. reflexivity. Qed.

(** What [report] does with an error when the channel, if any, has room. *)
Lemma report_error attempts errors logFailure (e : E) (w : W) (tr : list event) :
  match errors with
  | Some c => attempts <> 0 -> Z.of_nat (length (buf c)) < cap c
  | None => True
  end ->
  report attempts errors logFailure (Some e) {| world := w; trace := tr |} =
  Some (errors_after attempts errors [e],
        {| world := after_failure logFailure e w;
           trace := tr ++ log_events logFailure e
                       ++ send_events (sending attempts errors) e |}).
Proof.
  intros Hroom.
  unfold report, after_failure, log_events, send_events, sending, errors_after, emit.
  destruct errors as [c|]; cbn [world trace].
  - destruct (attempts =? 0) eqn:Ha; cbn [negb andb].
    + destruct logFailure; cbn [world trace]; rewrite ?app_nil_r; reflexivity.
    + apply Z.eqb_neq in Ha. specialize (Hroom Ha).
      unfold send. apply Z.ltb_lt in Hroom. rewrite Hroom.
      destruct logFailure; cbn [world trace]; rewrite <- ?app_assoc; reflexivity.
  - rewrite andb_false_r.
    destruct (negb (attempts =? 0)), logFailure; cbn [world trace];
      rewrite ?app_nil_r; reflexivity.
Qed.

Lemma errors_after_nil attempts errors : errors_after attempts errors [] = errors.
Proof.
  unfold errors_after. destruct errors as [[n b]|]; [|reflexivity].
  destruct (negb (attempts =? 0)); [|reflexivity].
  cbn [cap buf]. now rewrite app_nil_r.
Qed.

Lemma errors_after_cons attempts errors (e : E) es :
  errors_after attempts (errors_after attempts errors [e]) es =
  errors_after attempts errors (e :: es).
Proof.
  unfold errors_after. destruct errors as [c|]; [|reflexivity].
  destruct (negb (attempts =? 0)); [|reflexivity].
  cbn [cap buf]. now rewrite <- app_assoc.
Qed.

Lemma sending_errors_after attempts errors es :
  sending attempts (errors_after attempts errors es) = sending attempts errors.
Proof.
  unfold sending, errors_after. destruct errors as [c|]; [|reflexivity].
  now destruct (negb (attempts =? 0)).
Qed.

(** A function that always returns an error fails as many times in a row
    as one likes. *)
Lemma always_errors_fails fn logFailure (n : nat) :
  always_errors fn ->
  forall w : W, exists es w',
    length es = n /\ fails fn logFailure es w w'.
Proof.
  intros Hfn. induction n as [|n IH]; intros w.
  - exists [], w. split; [reflexivity|constructor].
  - destruct (Hfn w) as (e & w1 & He).
    destruct (IH (after_failure logFailure e w1)) as (es & w' & Hlen & Hrun).
    exists (e :: es), w'. split; [cbn [length]; now rewrite Hlen|].
    econstructor; eassumption.
Qed.

(** The loop goes through a run of failing attempts, as long as the bound
    on [attempt] allows them and the channel has room for their errors. *)
Lemma backoff_fails curve fn attempts logFailure es (w w' : W) :
  fails fn logFailure es w w' ->
  forall errors attempt fuel tr,
  attempts = 0 \/
    (0 <= attempt /\ attempt + Z.of_nat (length es) <= attempts
     /\ attempts <= Int64.max_int) ->
  match errors with
  | Some c =>
      attempts <> 0 -> Z.of_nat (length (buf c)) + Z.of_nat (length es) <= cap c
  | None => True
  end ->
  backoff (length es + fuel) curve fn attempts errors logFailure None attempt
    {| world := w; trace := tr |} =
  backoff fuel curve fn attempts (errors_after attempts errors es) logFailure
    None (advance (length es) attempt)
    {| world := w';
       trace := tr ++ failure_events logFailure curve (sending attempts errors)
                        attempt es |}.
Proof.
  induction 1 as [w|e es w w1 w' Hfn Hrun IH]; intros errors attempt fuel tr Hb Hroom.
  - cbn [length Nat.add advance failure_events].
    now rewrite errors_after_nil, app_nil_r.
  - cbn [length Nat.add advance failure_events].
    rewrite backoff_step.
    replace ((attempts =? 0) || (attempt <? attempts)) with true.
    2:{ symmetry. apply orb_true_iff.
        destruct Hb as [->|Hb]; [now left|right].
        apply Z.ltb_lt. cbn [length] in Hb. lia. }
    unfold emit; cbn [world trace]. rewrite Hfn.
    rewrite report_error.
    2:{ destruct errors as [c|]; [|exact I]. intros Ha.
        specialize (Hroom Ha). cbn [length] in Hroom. lia. }
    rewrite IH.
    + rewrite errors_after_cons, sending_errors_after.
      f_equal. f_equal. rewrite <- !app_assoc. reflexivity.
    + destruct Hb as [->|Hb]; [now left|right].
      cbn [length] in Hb. rewrite Int64_incr_small by (unfold Int64.max_int in *; lia).
      lia.
    + unfold errors_after. destruct errors as [c|]; [|exact I].
      destruct (negb (attempts =? 0)) eqn:Hs; cbn [cap buf].
      * intros Ha. specialize (Hroom Ha). cbn [length] in Hroom.
        rewrite length_app. cbn [length]. lia.
      * intros Ha. apply Z.eqb_neq in Ha. rewrite Ha in Hs. discriminate.
Qed.

(** *** Reading the trace of a run *)

Lemma invocations_app (tr1 tr2 : list event) :
  invocations (tr1 ++ tr2) = (invocations tr1 + invocations tr2)%nat.
Proof.
  induction tr1 as [|[ | | | ] tr1 IH]; cbn [app invocations]; auto.
  now rewrite IH.
Qed.

Lemma call_errors_app (tr1 tr2 : list event) :
  call_errors (tr1 ++ tr2) = call_errors tr1 ++ call_errors tr2.
Proof.
  induction tr1 as [|[ |r [e|]| | ] tr1 IH]; cbn [app call_errors]; auto.
  now rewrite IH.
Qed.

Lemma logged_app (tr1 tr2 : list event) :
  logged (tr1 ++ tr2) = logged tr1 ++ logged tr2.
Proof.
  induction tr1 as [|[ | |e| ] tr1 IH]; cbn [app logged]; auto.
  now rewrite IH.
Qed.

Lemma sent_app (tr1 tr2 : list event) :
  sent (tr1 ++ tr2) = sent tr1 ++ sent tr2.
Proof.
  induction tr1 as [|[ | | |e] tr1 IH]; cbn [app sent]; auto.
  now rewrite IH.
Qed.

Lemma invocations_report_events logFailure (sends : bool) (e : E) :
  invocations (log_events logFailure e ++ send_events sends e) = O.
Proof. unfold log_events, send_events. now destruct logFailure, sends. Qed.

Lemma call_errors_report_events logFailure (sends : bool) (e : E) :
  call_errors (log_events logFailure e ++ send_events sends e) = [].
Proof. unfold log_events, send_events. now destruct logFailure, sends. Qed.

Lemma logged_report_events logFailure (sends : bool) (e : E) :
  logged (log_events logFailure e ++ send_events sends e) =
  match logFailure with Some _ => [e] | None => [] end.
Proof. unfold log_events, send_events. now destruct logFailure, sends. Qed.

Lemma sent_report_events logFailure (sends : bool) (e : E) :
  sent (log_events logFailure e ++ send_events sends e) =
  if sends then [e] else [].
Proof. unfold log_events, send_events. now destruct logFailure, sends. Qed.

Lemma invocations_failure_events logFailure curve sends attempt es :
  invocations (failure_events logFailure curve sends attempt es) = length es.
Proof.
  revert attempt. induction es as [|e es IH]; intros attempt; [reflexivity|].
  cbn [failure_events invocations length]. rewrite app_assoc, invocations_app.
  now rewrite invocations_report_events, IH.
Qed.

Lemma call_errors_failure_events logFailure curve sends attempt es :
  call_errors (failure_events logFailure curve sends attempt es) = es.
Proof.
  revert attempt. induction es as [|e es IH]; intros attempt; [reflexivity|].
  cbn [failure_events call_errors]. rewrite app_assoc, call_errors_app.
  now rewrite call_errors_report_events, IH.
Qed.



Lemma sleeps_app (tr1 tr2 : list event) :
  sleeps (tr1 ++ tr2) = sleeps tr1 ++ sleeps tr2.
Proof.
  induction tr1 as [|[d| | | ] tr1 IH]; cbn [app sleeps]; auto.
  now rewrite IH.
Qed.

Lemma sleeps_report_events logFailure (sends : bool) (e : E) :
  sleeps (log_events logFailure e ++ send_events sends e) = [].
Proof. unfold log_events, send_events. now destruct logFailure, sends. Qed.

(** Before the attempt of index [i] the timer is set to
    [Time.seconds (curve (float64 i))]. *)
Lemma sleeps_failure_events logFailure curve sends attempt es :
  sleeps (failure_events logFailure curve sends attempt es) =
  map (fun i => Time.seconds (curve (F64.float_of_int i)))
      (attempt_indices (length es) attempt).
Proof.
  revert attempt. induction es as [|e es IH]; intros attempt; [reflexivity|].
  cbn [failure_events sleeps length attempt_indices map].
  rewrite app_assoc, sleeps_app, sleeps_report_events, IH. reflexivity.
Qed.

(** *** [Backoff] on a configuration that has its two functions *)

Lemma drain_app (pending errorList : list E) :
  drain pending errorList = errorList ++ pending.
Proof.
  revert errorList. induction pending as [|e pending IH]; intros errorList.
  - cbn [drain]. now rewrite app_nil_r.
  - cbn [drain]. now rewrite IH, <- app_assoc.
Qed.

Lemma Backoff_valid fuel (conf : Config) curve fn (w : W) :
  Curve conf = Some curve -> Func conf = Some fn ->
  0 <= MaxAttempts conf ->
  Backoff ErrInvalidConfig fuel conf w =
  match backoff fuel curve fn (MaxAttempts conf)
          (initial_channel (MaxAttempts conf)) (LogFailure conf) None 0
          {| world := w; trace := [] |} with
  | Returned (Some r, _, st) => Returned (Some r, None, st)
  | Returned (None, errorChannel, st) =>
      Returned (None, Some (receive_all errorChannel []), st)
  | Panicked => Panicked
  | Deadlocked => Deadlocked
  | OutOfFuel => OutOfFuel
  end.
Proof.
  intros Hc Hf Hn. unfold Backoff, initial_channel, make_chan. rewrite Hc, Hf.
  destruct (MaxAttempts conf =? 0); cbn [negb]; [reflexivity|].
  replace (MaxAttempts conf <? 0) with false by (symmetry; apply Z.ltb_ge; lia).
  reflexivity.
Qed.

Lemma sending_initial_channel (attempts : Z) :
  sending attempts (initial_channel (E := E) attempts) = negb (attempts =? 0).
Proof. unfold sending, initial_channel. now destruct (attempts =? 0). Qed.

Lemma room_initial_channel (attempts : Z) (n : nat) :
  attempts = 0 \/ Z.of_nat n <= attempts ->
  match initial_channel (E := E) attempts with
  | Some c => attempts <> 0 -> Z.of_nat (length (buf c)) + Z.of_nat n <= cap c
  | None => True
  end.
Proof.
  intros H. unfold initial_channel. destruct (attempts =? 0) eqn:Ha; [exact I|].
  apply Z.eqb_neq in Ha. cbn [cap buf length]. lia.
Qed.

Lemma fuel_split (n fuel : nat) :
  (n < fuel)%nat -> exists f, fuel = (n + S f)%nat.
Proof. intros H. exists (fuel - n - 1)%nat. lia. Qed.

(** The state a successful call leaves: the failing attempts, then the
    attempt that returned a result. *)
Lemma Backoff_success_state fuel (conf : Config) curve fn es
    (w w' w'' : W) (v : T) (err : option E) :
  Curve conf = Some curve -> Func conf = Some fn ->
  fails fn (LogFailure conf) es w w' ->
  fn w' = ((Some v, err), w'') ->
  MaxAttempts conf = 0 \/
    Z.of_nat (length es) < MaxAttempts conf <= Int64.max_int ->
  (length es < fuel)%nat ->
  Backoff ErrInvalidConfig fuel conf w =
  Returned (Some v, None,
    {| world := match err with
                | Some e => after_failure (LogFailure conf) e w''
                | None => w''
                end;
       trace :=
         failure_events (LogFailure conf) curve (negb (MaxAttempts conf =? 0)) 0 es
         ++ EvSleep (Time.seconds (curve (F64.float_of_int (advance (length es) 0))))
         :: EvCall (Some v) err
         :: match err with
            | Some e => log_events (LogFailure conf) e
                        ++ send_events (negb (MaxAttempts conf =? 0)) e
            | None => []
            end |}).
Proof.
  intros Hc Hf Hrun Hfn Hb Hfuel.
  destruct (fuel_split _ _ Hfuel) as [f ->].
  rewrite (Backoff_valid _ conf curve fn) by (auto; lia).
  rewrite (backoff_fails curve fn _ _ es w w' Hrun).
  2:{ destruct Hb as [Hb|Hb]; [now left|right]. lia. }
  2:{ apply room_initial_channel. destruct Hb as [Hb|Hb]; [now left|right]. lia. }
  rewrite sending_initial_channel, backoff_step.
  replace ((MaxAttempts conf =? 0) || (advance (length es) 0 <? MaxAttempts conf))
    with true.
  2:{ symmetry. apply orb_true_iff. destruct Hb as [Hb|Hb].
      - left. now apply Z.eqb_eq.
      - right. rewrite advance_small by lia. apply Z.ltb_lt. lia. }
  unfold emit; cbn [world trace app]. rewrite Hfn.
  destruct err as [e|].
  - rewrite report_error.
    2:{ unfold errors_after, initial_channel.
        destruct (MaxAttempts conf =? 0) eqn:Ha; [exact I|]. cbn [negb cap buf].
        intros _. rewrite length_app. cbn [length]. lia. }
    rewrite sending_errors_after, sending_initial_channel.
    do 3 f_equal. rewrite <- !app_assoc. reflexivity.
  - cbn [report]. do 3 f_equal. rewrite <- !app_assoc. reflexivity.
Qed.

(** A bounded call whose [N] invocations fail with the errors [es]
    returns a nil result and [es]. *)
Lemma Backoff_exhausted_run fuel (conf : Config) curve fn es (w w' : W) :
  Curve conf = Some curve -> Func conf = Some fn ->
  0 < MaxAttempts conf <= Int64.max_int ->
  Z.of_nat (length es) = MaxAttempts conf ->
  fails fn (LogFailure conf) es w w' ->
  (length es < fuel)%nat ->
  Backoff ErrInvalidConfig fuel conf w =
  Returned (None, Some es,
    {| world := w';
       trace := failure_events (LogFailure conf) curve true 0 es |}).
Proof.
  intros Hc Hf Hn Hlen Hrun Hfuel.
  destruct (fuel_split _ _ Hfuel) as [f ->].
  rewrite (Backoff_valid _ conf curve fn) by (auto; lia).
  rewrite (backoff_fails curve fn _ _ es w w' Hrun).
  2:{ right. lia. }
  2:{ apply room_initial_channel. right. lia. }
  rewrite backoff_step.
  replace ((MaxAttempts conf =? 0) || (advance (length es) 0 <? MaxAttempts conf))
    with false.
  2:{ symmetry. apply orb_false_iff. split.
      - apply Z.eqb_neq. lia.
      - rewrite advance_small by lia. apply Z.ltb_ge. lia. }
  rewrite sending_initial_channel.
  unfold errors_after, initial_channel.
  replace (MaxAttempts conf =? 0) with false by (symmetry; apply Z.eqb_neq; lia).
  cbn [negb receive_all buf app]. rewrite drain_app. reflexivity.
Qed.

(** C1.  A bounded call ([MaxAttempts = N > 0]) whose function returns an
    error, and no result, at every invocation returns (any fuel above [N]
    is enough) a nil result and a slice [es] of exactly [N] errors: the
    errors of [N] invocations of the function, one after the other
    ([fails]), which are all the calls of the run, in the order of the
    calls. *)
Theorem Backoff_exhausted fuel (conf : Config) curve fn (w : W) :
  Curve conf = Some curve -> Func conf = Some fn ->
  0 < MaxAttempts conf <= Int64.max_int ->
  always_errors fn ->
  (Z.to_nat (MaxAttempts conf) < fuel)%nat ->
  exists es st,
    Backoff ErrInvalidConfig fuel conf w = Returned (None, Some es, st)
    /\ Z.of_nat (length es) = MaxAttempts conf
    /\ fails fn (LogFailure conf) es w (world st)
    /\ call_errors (trace st) = es
    /\ invocations (trace st) = length es.
Proof.
  intros Hc Hf Hn Herr Hfuel.
  destruct (always_errors_fails fn (LogFailure conf)
              (Z.to_nat (MaxAttempts conf)) Herr w)
    as (es & w' & Hlen & Hrun).
  exists es. eexists. split.
  - apply (Backoff_exhausted_run fuel conf curve fn es w w'); auto; lia.
  - cbn [world trace].
    rewrite call_errors_failure_events, invocations_failure_events.
    repeat split; auto. lia.
Qed.

(** C2.  When the function returns an error (and no result) on attempts
    [0] to [k-1] and a result [v] on attempt [k], with [k < MaxAttempts] or
    [MaxAttempts = 0], the call returns [v] with a nil slice of errors, and
    the function has been invoked [k+1] times; [k] is the length of [es]. *)
Theorem Backoff_succeeds fuel (conf : Config) curve fn es
    (w w' w'' : W) (v : T) (err : option E) :
  Curve conf = Some curve -> Func conf = Some fn ->
  fails fn (LogFailure conf) es w w' ->
  fn w' = ((Some v, err), w'') ->
  MaxAttempts conf = 0 \/
    Z.of_nat (length es) < MaxAttempts conf <= Int64.max_int ->
  (length es < fuel)%nat ->
  exists st,
    Backoff ErrInvalidConfig fuel conf w = Returned (Some v, None, st)
    /\ invocations (trace st) = S (length es).
Proof.
  intros Hc Hf Hrun Hfn Hb Hfuel.
  rewrite (Backoff_success_state fuel conf curve fn es w w' w'' v err) by assumption.
  eexists. split; [reflexivity|]. cbn [trace].
  rewrite invocations_app, invocations_failure_events. cbn [invocations].
  destruct err as [e|]; [rewrite invocations_report_events|cbn [invocations]]; lia.
Qed.

(** C3.  When the configuration has no curve or no function, the call
    returns a nil result and the one-element slice [ErrInvalidConfig]; the
    function has not been invoked (nothing at all has happened). *)
Theorem Backoff_invalid_config fuel (conf : Config) (w : W) :
  Curve conf = None \/ Func conf = None ->
  exists st,
    Backoff ErrInvalidConfig fuel conf w =
      Returned (None, Some [ErrInvalidConfig], st)
    /\ invocations (trace st) = O
    /\ trace st = [] /\ world st = w.
Proof.
  intros H. exists {| world := w; trace := [] |}.
  split; [|now repeat split]. unfold Backoff.
  destruct H as [-> | ->]; [reflexivity|]. now destruct (Curve conf).
Qed.


(** *** Any function, unbounded mode *)

Lemma report_any attempts errors logFailure (err : option E) (w : W)
    (tr : list event) :
  match errors with
  | Some c => attempts <> 0 -> Z.of_nat (length (buf c)) < cap c
  | None => True
  end ->
  report attempts errors logFailure err {| world := w; trace := tr |} =
  Some (errors_after attempts errors (error_list err),
        {| world := match err with
                    | Some e => after_failure logFailure e w
                    | None => w
                    end;
           trace := tr ++ report_events logFailure (sending attempts errors) err |}).
Proof.
  intros Hroom. destruct err as [e|].
  - now apply report_error.
  - cbn [report error_list report_events].
    now rewrite errors_after_nil, app_nil_r.
Qed.

Lemma sent_report_events_off logFailure (err : option E) :
  sent (report_events logFailure false err) = [].
Proof.
  destruct err as [e|]; [|reflexivity]. cbn [report_events].
  now rewrite sent_report_events.
Qed.

Lemma logged_report_events_any logFailure (sends : bool) (err : option E) :
  logged (report_events logFailure sends err) =
  match logFailure with Some _ => error_list err | None => [] end.
Proof.
  destruct err as [e|]; cbn [report_events error_list].
  - apply logged_report_events.
  - now destruct logFailure.
Qed.

Lemma invocations_report_events_any logFailure (sends : bool) (err : option E) :
  invocations (report_events logFailure sends err) = O.
Proof.
  destruct err as [e|]; [|reflexivity]. apply invocations_report_events.
Qed.

Lemma call_errors_report_events_any logFailure (sends : bool) (err : option E) :
  call_errors (report_events logFailure sends err) = [].
Proof.
  destruct err as [e|]; [|reflexivity]. apply call_errors_report_events.
Qed.

(** With [attempts = 0] and a nil channel the loop ends only by [break]:
    with a result, nothing sent, and every error logged if there is a
    [logFailure]. *)
Lemma backoff_loop_unbounded curve fn logFailure fuel :
  forall (res : option T) attempt (w : W) (tr0 : list event)
         (r : option T) errors' st',
  backoff fuel curve fn 0 None logFailure res attempt
    {| world := w; trace := tr0 |} = Returned (r, errors', st') ->
  (exists v, r = Some v) /\ errors' = None
  /\ exists tr, trace st' = tr0 ++ tr /\ sent tr = []
     /\ logged tr = match logFailure with
                    | Some _ => call_errors tr
                    | None => []
                    end.
Proof.
  induction fuel as [|fuel IH]; intros res attempt w tr0 r errors' st' Hrun.
  - discriminate Hrun.
  - rewrite backoff_step in Hrun. cbn [Z.eqb orb] in Hrun.
    unfold emit in Hrun; cbn [world trace] in Hrun.
    destruct (fn w) as [[res' err] w1].
    rewrite report_any in Hrun by exact I.
    set (step := [EvSleep (Time.seconds (curve (F64.float_of_int attempt)));
                  EvCall res' err] ++ report_events logFailure false err).
    assert (Hstep : sent step = []
              /\ logged step = match logFailure with
                               | Some _ => call_errors step
                               | None => []
                               end).
    { unfold step. rewrite sent_app, logged_app, call_errors_app.
      rewrite sent_report_events_off, logged_report_events_any.
      rewrite call_errors_report_events_any. cbn [sent logged app].
      split; [reflexivity|]. destruct logFailure; [|reflexivity].
      destruct err; cbn [call_errors error_list]; now rewrite ?app_nil_r. }
    destruct Hstep as [Hsent Hlog].
    destruct res' as [v|].
    + injection Hrun as <- <- <-. split; [now exists v|]. split; [reflexivity|].
      exists step. cbn [trace]. unfold step. rewrite <- !app_assoc.
      repeat split; auto.
    + cbn [errors_after] in Hrun. apply IH in Hrun.
      destruct Hrun as (Hr & He & tr & Htr & Hs & Hl).
      split; [exact Hr|]. split; [exact He|].
      exists (step ++ tr). rewrite Htr. unfold step at 1.
      rewrite <- !app_assoc. split; [reflexivity|].
      rewrite sent_app, logged_app, call_errors_app, Hsent, Hs, Hlog, Hl.
      split; [reflexivity|]. now destruct logFailure.
Qed.

(** C4.  In unbounded mode ([MaxAttempts = 0]) a call that returns returns
    a result and a nil slice of errors; no error has been sent on (there is
    no) error channel; and the errors the function returned have gone to
    [LogFailure], in order, when there is one, and nowhere otherwise. *)
Theorem Backoff_unbounded fuel (conf : Config) curve fn (w : W)
    (res : option T) (errs : option (list E)) (st : state) :
  Curve conf = Some curve -> Func conf = Some fn ->
  MaxAttempts conf = 0 ->
  Backoff ErrInvalidConfig fuel conf w = Returned (res, errs, st) ->
  (exists v, res = Some v) /\ errs = None
  /\ sent (trace st) = []
  /\ logged (trace st) = match LogFailure conf with
                         | Some _ => call_errors (trace st)
                         | None => []
                         end.
Proof.
  intros Hc Hf Hn Hrun.
  rewrite (Backoff_valid _ conf curve fn) in Hrun by (auto; lia).
  rewrite Hn in Hrun. cbn [initial_channel Z.eqb] in Hrun.
  destruct (backoff fuel curve fn 0 None (LogFailure conf) None 0
              {| world := w; trace := [] |})
    as [[[r errors'] st']| | |] eqn:Hloop; try discriminate Hrun.
  apply backoff_loop_unbounded in Hloop.
  destruct Hloop as ([v ->] & _ & tr & Htr & Hs & Hl).
  injection Hrun as <- <- <-. cbn [app] in Htr. rewrite Htr.
  split; [now exists v|]. auto.
Qed.

(** *** Any function, bounded mode *)

Lemma call_errors_le_invocations (tr : list event) :
  (length (call_errors tr) <= invocations tr)%nat.
Proof.
  induction tr as [|[ |r [e|]| | ] tr IH]; cbn [call_errors invocations length]; lia.
Qed.

(** From attempt [attempt] on, with [n] attempts left, the loop returns
    after at most [n] calls; the channel has received the errors of those
    calls and was never full when the loop sent on it. *)
Lemma backoff_loop_bounded curve fn attempts logFailure :
  attempts <> 0 -> attempts <= Int64.max_int ->
  forall (n : nat) attempt (c : chan) fuel (res : option T) (w : W)
         (tr0 : list event),
  0 <= attempt -> attempt + Z.of_nat n = attempts ->
  cap c = attempts -> Z.of_nat (length (buf c)) <= attempt ->
  (n < fuel)%nat ->
  exists r c' w1 tr,
    backoff fuel curve fn attempts (Some c) logFailure res attempt
      {| world := w; trace := tr0 |} =
    Returned (r, Some c', {| world := w1; trace := tr0 ++ tr |})
    /\ (invocations tr <= n)%nat
    /\ buf c' = buf c ++ call_errors tr.
Proof.
  intros Hne Hmax. induction n as [|n IH];
    intros attempt c fuel res w tr0 H0 Hsum Hcap Hlen Hfuel;
    destruct fuel as [|fuel]; try lia; rewrite backoff_step.
  - replace ((attempts =? 0) || (attempt <? attempts)) with false.
    2:{ symmetry. apply orb_false_iff. split;
          [now apply Z.eqb_neq | apply Z.ltb_ge; lia]. }
    exists res, c, w, []. rewrite !app_nil_r. repeat split; auto.
  - replace ((attempts =? 0) || (attempt <? attempts)) with true.
    2:{ symmetry. apply orb_true_iff. right. apply Z.ltb_lt. lia. }
    unfold emit; cbn [world trace].
    destruct (fn w) as [[res' err] w1].
    rewrite report_any by (intros _; lia).
    unfold errors_after, sending.
    replace (negb (attempts =? 0)) with true
      by (symmetry; apply negb_true_iff; now apply Z.eqb_neq).
    cbn [andb].
    set (step := [EvSleep (Time.seconds (curve (F64.float_of_int attempt)));
                  EvCall res' err] ++ report_events logFailure true err).
    assert (Hstep : invocations step = 1%nat /\ call_errors step = error_list err).
    { unfold step. rewrite invocations_app, call_errors_app.
      rewrite invocations_report_events_any, call_errors_report_events_any.
      split; [reflexivity|]. destruct err; reflexivity. }
    destruct Hstep as [Hinv Herr].
    destruct res' as [v|].
    + eexists _, _, _, step. split.
      * unfold step. rewrite <- !app_assoc. reflexivity.
      * rewrite Hinv, Herr. cbn [buf]. split; [lia|reflexivity].
    + destruct (IH (Int64.incr attempt)
                  {| cap := cap c; buf := buf c ++ error_list err |} fuel None
                  (match err with
                   | Some e => after_failure logFailure e w1
                   | None => w1
                   end)
                  (((tr0 ++ [EvSleep (Time.seconds (curve (F64.float_of_int attempt)))])
                        ++ [EvCall None err])
                   ++ report_events logFailure true err))
        as (r & c' & w2 & tr & Hrun & Hi & Hb).
      * rewrite Int64_incr_small by lia. lia.
      * rewrite Int64_incr_small by lia. lia.
      * exact Hcap.
      * cbn [buf]. rewrite length_app, Int64_incr_small by lia.
        destruct err; cbn [error_list length]; lia.
      * lia.
      * exists r, c', w2, (step ++ tr). split.
        { rewrite Hrun. unfold step. rewrite <- !app_assoc. reflexivity. }
        rewrite invocations_app, call_errors_app, Hinv, Herr.
        cbn [buf] in Hb. rewrite Hb, <- app_assoc.
        split; [lia|reflexivity].
Qed.

(** C6.  With [MaxAttempts > 0], whatever the configuration and whatever
    its function does, the call returns, the function has been invoked at
    most [MaxAttempts] times and the slice of errors has at most
    [MaxAttempts] elements. *)
Theorem Backoff_bounded fuel (conf : Config) (w : W) :
  0 < MaxAttempts conf <= Int64.max_int ->
  (Z.to_nat (MaxAttempts conf) < fuel)%nat ->
  exists res errs st,
    Backoff ErrInvalidConfig fuel conf w = Returned (res, errs, st)
    /\ Z.of_nat (invocations (trace st)) <= MaxAttempts conf
    /\ Z.of_nat (length (elements errs)) <= MaxAttempts conf.
Proof.
  intros Hn Hfuel.
  destruct (Curve conf) as [curve|] eqn:Hc.
  1: destruct (Func conf) as [fn|] eqn:Hf.
  2,3: exists None, (Some [ErrInvalidConfig]), {| world := w; trace := [] |};
       (split; [|cbn [trace invocations elements length]; lia]);
       unfold Backoff; rewrite Hc, ?Hf; reflexivity.
  rewrite (Backoff_valid _ conf curve fn) by (auto; lia).
  unfold initial_channel.
  replace (MaxAttempts conf =? 0) with false by (symmetry; apply Z.eqb_neq; lia).
  destruct (backoff_loop_bounded curve fn (MaxAttempts conf) (LogFailure conf)
              ltac:(lia) ltac:(lia) (Z.to_nat (MaxAttempts conf)) 0
              {| cap := MaxAttempts conf; buf := [] |} fuel None w [])
    as (r & c' & w1 & tr & Hrun & Hi & Hb);
    [lia | lia | reflexivity | cbn [buf length]; lia | exact Hfuel |].
  rewrite Hrun. cbn [app buf] in *.
  pose proof (call_errors_le_invocations tr) as Hle.
  destruct r as [v|].
  - eexists _, _, _. split; [reflexivity|]. cbn [trace elements length]. lia.
  - eexists _, _, _. split; [reflexivity|].
    cbn [trace elements receive_all]. rewrite drain_app, Hb. cbn [app]. lia.
Qed.

End EngineFacts.

(** ** Concrete runs *)

(** Scenario A of the specification. *)
Example scenario_A_run :
  Backoff Scenario.ErrInvalidConfig 4 Scenario.scenario_A O =
  Returned (None, Some ["e1"; "e2"; "e3"]%string,
    {| world := 3%nat;
       trace := [EvSleep (Some 0); EvCall None (Some "e1"%string);
                 EvLog "e1"%string; EvSend "e1"%string;
                 EvSleep (Some 0); EvCall None (Some "e2"%string);
                 EvLog "e2"%string; EvSend "e2"%string;
                 EvSleep (Some 1000000000); EvCall None (Some "e3"%string);
                 EvLog "e3"%string; EvSend "e3"%string] |}).
Proof. vm_compute. reflexivity. Qed.

(** Scenario B of the specification. *)
Example scenario_B_run :
  Backoff Scenario.ErrInvalidConfig 4 Scenario.scenario_B O =
  Returned (Some Scenario.V, None, Scenario.scenario_B_final).
Proof. vm_compute. reflexivity. Qed.

(** A negative [MaxAttempts] makes [make] panic. *)
Example negative_MaxAttempts_panics :
  Backoff Scenario.ErrInvalidConfig 4
    (Scenario.config Scenario.always_failing (-1)) O = Panicked.
Proof. reflexivity. Qed.

(** C5, on the code.  The waits of four failing attempts under [Linear(x,
    0.5)]: the curve gives 0, 0.5, 1 and 1.5 (seconds), the timer is set to
    0, 0, 1 and 1 second, in nanoseconds: the conversion to [Duration]
    drops the fraction before the multiplication by [time.Second]. *)
Theorem Backoff_waits_whole_seconds :
  map Scenario.half_steps [0; 1; 2; 3]%float = [0; 0.5; 1; 1.5]%float
  /\ exists st,
       Backoff Scenario.ErrInvalidConfig 5 Scenario.four_failures O =
         Returned (None, Some ["e1"; "e2"; "e3"; "e"]%string, st)
       /\ sleeps (trace st) =
            [Some 0; Some 0; Some 1000000000; Some 1000000000].
Proof.
  split; [reflexivity|]. eexists. split; vm_compute; reflexivity.
Qed.

Lemma Backoff_exhausted_witness :
  always_errors Scenario.always_failing
  /\ exists es st,
       Backoff Scenario.ErrInvalidConfig 4 Scenario.scenario_A O =
         Returned (None, Some es, st)
       /\ Z.of_nat (length es) = MaxAttempts Scenario.scenario_A
       /\ fails Scenario.always_failing (LogFailure Scenario.scenario_A)
            es O (world st)
       /\ call_errors (trace st) = es
       /\ invocations (trace st) = length es.
Proof.
  assert (Herr : always_errors Scenario.always_failing)
    by (intros n; eexists _, _; reflexivity).
  split; [exact Herr|].
  apply (Backoff_exhausted Scenario.ErrInvalidConfig 4 Scenario.scenario_A
           Scenario.half_steps Scenario.always_failing O);
    [reflexivity | reflexivity | unfold Int64.max_int; simpl; lia
    | exact Herr | simpl; lia].
Defined.

Lemma Backoff_succeeds_witness :
  fails (Scenario.failing_until 2) (LogFailure Scenario.scenario_B)
    ["e1"; "e2"]%string 0%nat 2%nat
  /\ Scenario.failing_until 2 2%nat = ((Some Scenario.V, None), 3%nat)
  /\ exists st,
       Backoff Scenario.ErrInvalidConfig 4 Scenario.scenario_B O =
         Returned (Some Scenario.V, None, st)
       /\ invocations (trace st) = 3%nat.
Proof.
  assert (Hrun : fails (Scenario.failing_until 2) (LogFailure Scenario.scenario_B)
                   ["e1"; "e2"]%string 0%nat 2%nat)
    by (repeat econstructor).
  split; [exact Hrun|]. split; [reflexivity|].
  apply (Backoff_succeeds Scenario.ErrInvalidConfig 4 Scenario.scenario_B
           Scenario.half_steps (Scenario.failing_until 2)
           ["e1"; "e2"]%string 0%nat 2%nat 3%nat Scenario.V None);
    [reflexivity | reflexivity | exact Hrun | reflexivity
    | left; reflexivity | simpl; lia].
Defined.

Lemma Backoff_invalid_config_witness :
  Func Scenario.no_func = None
  /\ exists st,
       Backoff Scenario.ErrInvalidConfig 4 Scenario.no_func O =
         Returned (None, Some [Scenario.ErrInvalidConfig], st)
       /\ invocations (trace st) = O
       /\ trace st = [] /\ world st = O.
Proof.
  split; [reflexivity|].
  apply (Backoff_invalid_config Scenario.ErrInvalidConfig 4 Scenario.no_func O).
  right. reflexivity.
Defined.

Lemma Backoff_unbounded_witness :
  MaxAttempts Scenario.scenario_B = 0
  /\ Backoff Scenario.ErrInvalidConfig 4 Scenario.scenario_B O =
       Returned (Some Scenario.V, None, Scenario.scenario_B_final)
  /\ (exists v, Some Scenario.V = Some v)
  /\ @None (list string) = None
  /\ sent (trace Scenario.scenario_B_final) = []
  /\ logged (trace Scenario.scenario_B_final) =
       call_errors (trace Scenario.scenario_B_final).
Proof.
  split; [reflexivity|]. split; [exact scenario_B_run|].
  exact (Backoff_unbounded Scenario.ErrInvalidConfig 4 Scenario.scenario_B
           Scenario.half_steps (Scenario.failing_until 2) O
           (Some Scenario.V) None Scenario.scenario_B_final
           eq_refl eq_refl eq_refl scenario_B_run).
Defined.

Lemma Backoff_bounded_witness :
  0 < MaxAttempts Scenario.scenario_A <= Int64.max_int
  /\ exists res errs st,
       Backoff Scenario.ErrInvalidConfig 4 Scenario.scenario_A O =
         Returned (res, errs, st)
       /\ Z.of_nat (invocations (trace st)) <= MaxAttempts Scenario.scenario_A
       /\ Z.of_nat (length (elements errs)) <= MaxAttempts Scenario.scenario_A.
Proof.
  assert (Hn : 0 < MaxAttempts Scenario.scenario_A <= Int64.max_int)
    by (unfold Int64.max_int; simpl; lia).
  split; [exact Hn|].
  apply (Backoff_bounded Scenario.ErrInvalidConfig 4 Scenario.scenario_A O Hn).
  simpl. lia.
Defined.


(** ** The curves *)

Section CurveFacts.

Local Open Scope R_scope.




End CurveFacts.




(** * More on the retry loop: any function, any mode *)

Section RunFacts.

Context {T E W : Type}.
Variable ErrInvalidConfig : E.

Local Abbreviation Config := (@Config T E W).
Local Abbreviation state := (@state T E W).
Local Abbreviation event := (@event T E).
Local Abbreviation report_events := (@report_events T E W).

Implicit Types (fn : W -> (option T * option E) * W)
  (logFailure : option (E -> W -> W)) (curve : float -> float)
  (errors : option (@chan E)) (st : state) (es : list E).

Lemma calls_app (tr1 tr2 : list event) :
  calls (tr1 ++ tr2) = calls tr1 ++ calls tr2.
Proof.
  induction tr1 as [|[ | | | ] tr1 IH]; cbn [app calls]; auto.
  now rewrite IH.
Qed.

Lemma invocations_calls (tr : list event) : invocations tr = length (calls tr).
Proof.
  induction tr as [|[ | | | ] tr IH]; cbn [invocations calls length]; auto.
Qed.

Lemma call_errors_calls (tr : list event) :
  call_errors tr = flat_map (fun o => error_list (snd o)) (calls tr).
Proof.
  induction tr as [|[ |r [e|]| | ] tr IH];
    cbn [call_errors calls flat_map snd error_list app]; auto.
  now rewrite IH.
Qed.

Lemma sent_report_events_any logFailure (sends : bool) (err : option E) :
  sent (report_events logFailure sends err) =
  if sends then error_list err else [].
Proof.
  destruct err as [e|]; cbn [report_events error_list].
  - apply sent_report_events.
  - now destruct sends.
Qed.

Lemma sleeps_report_events_any logFailure (sends : bool) (err : option E) :
  sleeps (report_events logFailure sends err) = [].
Proof.
  destruct err as [e|]; [|reflexivity]. apply sleeps_report_events.
Qed.

Lemma calls_report_events_any logFailure (sends : bool) (err : option E) :
  calls (report_events logFailure sends err) = [].
Proof.
  destruct err as [e|]; [|reflexivity]. cbn [report_events].
  unfold log_events, send_events. now destruct logFailure, sends.
Qed.

Lemma errors_after_app attempts errors es1 es2 :
  errors_after attempts (errors_after attempts errors es1) es2 =
  errors_after attempts errors (es1 ++ es2).
Proof.
  unfold errors_after. destruct errors as [c|]; [|reflexivity].
  destruct (negb (attempts =? 0)); [|reflexivity].
  cbn [cap buf]. now rewrite <- app_assoc.
Qed.

(** When the loop goes round, the channel has room for the error of the
    turn. *)
Lemma loop_invariant_room attempts errors attempt :
  loop_invariant attempts errors attempt ->
  ((attempts =? 0) || (attempt <? attempts)) = true ->
  match errors with
  | Some c => attempts <> 0 -> Z.of_nat (length (buf c)) < cap c
  | None => True
  end.
Proof.
  unfold loop_invariant. intros Hinv Hcond. destruct errors as [c|]; [|exact I].
  intros _. destruct Hinv as (Hne & Hr & Hmax & Hcap & Hlen).
  apply orb_true_iff in Hcond. destruct Hcond as [H|H].
  - apply Z.eqb_eq in H. contradiction.
  - apply Z.ltb_lt in H. lia.
Qed.

(** The invariant holds again at the head of the next turn. *)
Lemma loop_invariant_next attempts errors attempt (err : option E) :
  loop_invariant attempts errors attempt ->
  ((attempts =? 0) || (attempt <? attempts)) = true ->
  loop_invariant attempts (errors_after attempts errors (error_list err))
    (Int64.incr attempt).
Proof.
  unfold loop_invariant, errors_after. intros Hinv Hcond.
  destruct errors as [c|]; [|exact Hinv].
  destruct Hinv as (Hne & Hr & Hmax & Hcap & Hlen).
  apply orb_true_iff in Hcond. destruct Hcond as [H|H].
  { apply Z.eqb_eq in H. contradiction. }
  apply Z.ltb_lt in H.
  replace (negb (attempts =? 0)) with true
    by (symmetry; apply negb_true_iff; now apply Z.eqb_neq).
  cbn [cap buf]. rewrite Int64_incr_small by lia. rewrite length_app.
  repeat split; try lia. destruct err; cbn [error_list length]; lia.
Qed.

(** In bounded mode [attempt++] does not wrap. *)
Lemma loop_invariant_incr attempts errors attempt :
  loop_invariant attempts errors attempt ->
  attempts <> 0 -> (attempt <? attempts) = true ->
  Int64.incr attempt = attempt + 1.
Proof.
  unfold loop_invariant. intros Hinv Hne Hlt. apply Z.ltb_lt in Hlt.
  destruct errors as [c|]; [|contradiction].
  destruct Hinv as (_ & Hr & Hmax & _). apply Int64_incr_small; lia.
Qed.

(** The loop, run from the head of a turn at which the invariant holds,
    never blocks on the channel; when it ends, the run reads as
    [run_shape] says. *)
Lemma backoff_loop_shape curve fn attempts logFailure (fuel : nat) :
  forall errors attempt (w : W) (tr0 : list event),
  loop_invariant attempts errors attempt ->
  backoff fuel curve fn attempts errors logFailure None attempt
    {| world := w; trace := tr0 |} = OutOfFuel
  \/ exists r errors' w1 tr,
       backoff fuel curve fn attempts errors logFailure None attempt
         {| world := w; trace := tr0 |} =
       Returned (r, errors', {| world := w1; trace := tr0 ++ tr |})
       /\ run_shape curve fn attempts errors logFailure attempt r errors' tr.
Proof.
  induction fuel as [|fuel IH]; intros errors attempt w tr0 Hinv;
    [now left|].
  rewrite backoff_step.
  destruct ((attempts =? 0) || (attempt <? attempts)) eqn:Hcond.
  - unfold emit; cbn [world trace].
    destruct (fn w) as [[res' err] w1] eqn:Hfn.
    rewrite report_any by (now apply loop_invariant_room with (attempt := attempt)).
    set (sends := sending attempts errors).
    set (step := [EvSleep (Time.seconds (curve (F64.float_of_int attempt)));
                  EvCall res' err] ++ report_events logFailure sends err).
    assert (Hi : invocations step = 1%nat).
    { unfold step. rewrite invocations_app.
      now rewrite invocations_report_events_any. }
    assert (Hsl : sleeps step = [wait_before curve attempt]).
    { unfold step. rewrite sleeps_app. now rewrite sleeps_report_events_any. }
    assert (Hlg : logged step =
                  match logFailure with Some _ => error_list err | None => [] end).
    { unfold step. rewrite logged_app. now rewrite logged_report_events_any. }
    assert (Hst : sent step = if sends then error_list err else []).
    { unfold step. rewrite sent_app. now rewrite sent_report_events_any. }
    assert (Hce : call_errors step = error_list err).
    { unfold step. rewrite call_errors_app, call_errors_report_events_any.
      now destruct err. }
    assert (Hcl : calls step = [(res', err)]).
    { unfold step. rewrite calls_app. now rewrite calls_report_events_any. }
    assert (Hfst : exists w0 : W, fst (fn w0) = (res', err))
      by (exists w; now rewrite Hfn).
    destruct res' as [v|].
    + right. exists (Some v), (errors_after attempts errors (error_list err)).
      eexists _, step. split.
      * unfold step. rewrite <- !app_assoc. reflexivity.
      * constructor.
        -- now rewrite Hi, Hsl.
        -- rewrite Hlg, Hce. reflexivity.
        -- rewrite Hst, Hce. reflexivity.
        -- now rewrite Hce.
        -- rewrite Hcl. now constructor.
        -- left. exists v, O. rewrite Hcl. now split.
    + destruct (IH (errors_after attempts errors (error_list err))
                  (Int64.incr attempt)
                  (match err with
                   | Some e => after_failure logFailure e w1
                   | None => w1
                   end)
                  (((tr0 ++ [EvSleep (Time.seconds (curve (F64.float_of_int attempt)))])
                        ++ [EvCall None err])
                   ++ report_events logFailure sends err))
        as [Hout | (r & errors' & w2 & tr & Hrun & Hshape)].
      * now apply loop_invariant_next.
      * left. exact Hout.
      * right. exists r, errors', w2, (step ++ tr). split.
        { rewrite Hrun. unfold step. rewrite <- !app_assoc. reflexivity. }
        destruct Hshape as [Hs1 Hs2 Hs3 Hs4 Hs5 Hs6].
        rewrite sending_errors_after in Hs3. fold sends in Hs3.
        rewrite errors_after_app in Hs4.
        constructor.
        -- rewrite sleeps_app, invocations_app, Hi, Hsl, Hs1. reflexivity.
        -- rewrite logged_app, call_errors_app, Hlg, Hce, Hs2.
           now destruct logFailure.
        -- fold sends. rewrite sent_app, call_errors_app, Hst, Hce, Hs3.
           now destruct sends.
        -- now rewrite call_errors_app, Hce.
        -- rewrite calls_app, Hcl. apply Forall_app. split; [|exact Hs5].
           now constructor.
        -- rewrite calls_app, Hcl, invocations_app, Hi. cbn [app map fst].
           destruct Hs6 as [(v & n & Hr & Hc) | (Hr & Hc & Hne & Hsum)].
           ++ left. exists v, (S n). split; [exact Hr|]. now rewrite Hc.
           ++ right. split; [exact Hr|]. split; [now rewrite Hc|].
              split; [exact Hne|].
              apply orb_true_iff in Hcond. destruct Hcond as [H|H].
              { apply Z.eqb_eq in H. contradiction. }
              rewrite (loop_invariant_incr attempts errors attempt Hinv Hne H)
                in Hsum. lia.
  - right. exists None, errors, w, []. rewrite app_nil_r. split; [reflexivity|].
    apply orb_false_iff in Hcond. destruct Hcond as [Hz Hlt].
    apply Z.eqb_neq in Hz. apply Z.ltb_ge in Hlt.
    constructor; cbn [sleeps logged sent call_errors calls invocations
                      attempt_indices map repeat].
    + reflexivity.
    + now destruct logFailure.
    + now destruct (sending attempts errors).
    + now rewrite errors_after_nil.
    + constructor.
    + right. repeat split; auto.
      unfold loop_invariant in Hinv. destruct errors as [c|]; [lia|contradiction].
Qed.

Lemma initial_invariant (attempts : Z) :
  0 <= attempts <= Int64.max_int ->
  loop_invariant attempts (initial_channel (E := E) attempts) 0.
Proof.
  intros H. unfold loop_invariant, initial_channel.
  destruct (attempts =? 0) eqn:Ha; [now apply Z.eqb_eq|].
  apply Z.eqb_neq in Ha. cbn [cap buf length]. lia.
Qed.

Lemma receive_all_after (attempts : Z) es :
  attempts <> 0 ->
  receive_all (errors_after attempts (initial_channel attempts) es) [] = es.
Proof.
  intros Hne. unfold errors_after, initial_channel.
  replace (attempts =? 0) with false by (symmetry; now apply Z.eqb_neq).
  cbn [negb receive_all buf app]. now rewrite drain_app.
Qed.

(** A call on a configuration that has its two functions and a
    non-negative [MaxAttempts]: it does not panic, it does not block, and
    when it returns the run reads as [run_shape] says. *)
Lemma Backoff_shape fuel (conf : Config) curve fn (w : W) :
  Curve conf = Some curve -> Func conf = Some fn ->
  0 <= MaxAttempts conf <= Int64.max_int ->
  Backoff ErrInvalidConfig fuel conf w = OutOfFuel
  \/ exists r errors' st,
       Backoff ErrInvalidConfig fuel conf w =
         Returned (r, match r with
                      | Some _ => None
                      | None => Some (receive_all errors' [])
                      end, st)
       /\ run_shape curve fn (MaxAttempts conf)
            (initial_channel (MaxAttempts conf)) (LogFailure conf) 0
            r errors' (trace st).
Proof.
  intros Hc Hf Hn.
  rewrite (Backoff_valid ErrInvalidConfig fuel conf curve fn) by (auto; lia).
  destruct (backoff_loop_shape curve fn (MaxAttempts conf) (LogFailure conf) fuel
              (initial_channel (MaxAttempts conf)) 0 w []
              (initial_invariant _ Hn))
    as [Hout | (r & errors' & w1 & tr & Hrun & Hshape)].
  - left. now rewrite Hout.
  - right. rewrite Hrun. cbn [app].
    exists r, errors', {| world := w1; trace := tr |}.
    split; [now destruct r|exact Hshape].
Qed.

(** What a returned call says about its run. *)
Lemma Backoff_returned_shape fuel (conf : Config) curve fn (w : W)
    (res : option T) (errs : option (list E)) st :
  Curve conf = Some curve -> Func conf = Some fn ->
  0 <= MaxAttempts conf <= Int64.max_int ->
  Backoff ErrInvalidConfig fuel conf w = Returned (res, errs, st) ->
  exists errors',
    errs = match res with
           | Some _ => None
           | None => Some (receive_all errors' [])
           end
    /\ run_shape curve fn (MaxAttempts conf)
         (initial_channel (MaxAttempts conf)) (LogFailure conf) 0
         res errors' (trace st).
Proof.
  intros Hc Hf Hn Hrun.
  destruct (Backoff_shape fuel conf curve fn w Hc Hf Hn)
    as [Hout | (r & errors' & st' & Hrun' & Hshape)].
  - rewrite Hout in Hrun. discriminate Hrun.
  - rewrite Hrun' in Hrun. injection Hrun as <- <- <-.
    now exists errors'.
Qed.

(** With a negative [MaxAttempts], a configuration that passes the check
    of its two functions makes [make] panic: nothing is called, whatever the
    fuel. *)
Theorem Backoff_negative_attempts fuel (conf : Config) curve fn (w : W) :
  Curve conf = Some curve -> Func conf = Some fn ->
  MaxAttempts conf < 0 ->
  Backoff ErrInvalidConfig fuel conf w = Panicked.
Proof.
  intros Hc Hf Hn. unfold Backoff, make_chan. rewrite Hc, Hf.
  replace (MaxAttempts conf =? 0) with false by (symmetry; apply Z.eqb_neq; lia).
  replace (MaxAttempts conf <? 0) with true by (symmetry; now apply Z.ltb_lt).
  reflexivity.
Qed.

(** With [MaxAttempts >= 0], whatever the configuration and its function, a
    call neither panics nor blocks on the error channel: it returns, or the
    loop is still running when the fuel is out. *)
Theorem Backoff_never_blocks fuel (conf : Config) (w : W) :
  0 <= MaxAttempts conf <= Int64.max_int ->
  Backoff ErrInvalidConfig fuel conf w = OutOfFuel
  \/ exists res errs st,
       Backoff ErrInvalidConfig fuel conf w = Returned (res, errs, st).
Proof.
  intros Hn.
  destruct (Curve conf) as [curve|] eqn:Hc.
  1: destruct (Func conf) as [fn|] eqn:Hf.
  2,3: right; exists None, (Some [ErrInvalidConfig]), {| world := w; trace := [] |};
       unfold Backoff; rewrite Hc, ?Hf; reflexivity.
  destruct (Backoff_shape fuel conf curve fn w Hc Hf Hn)
    as [Hout | (r & errors' & st & Hrun & _)]; [now left|right].
  eexists _, _, _. exact Hrun.
Qed.

(** A bounded call that returns no result has invoked the function exactly
    [MaxAttempts] times, and the slice it returns holds exactly the errors
    those calls returned, in call order.  (A call that returned neither a
    result nor an error adds nothing: the slice can be shorter than
    [MaxAttempts].) *)
Theorem Backoff_gives_up fuel (conf : Config) curve fn (w : W)
    (errs : option (list E)) st :
  Curve conf = Some curve -> Func conf = Some fn ->
  0 < MaxAttempts conf <= Int64.max_int ->
  Backoff ErrInvalidConfig fuel conf w = Returned (None, errs, st) ->
  Z.of_nat (invocations (trace st)) = MaxAttempts conf
  /\ errs = Some (call_errors (trace st)).
Proof.
  intros Hc Hf Hn Hrun.
  destruct (Backoff_returned_shape fuel conf curve fn w None errs st Hc Hf
              ltac:(lia) Hrun) as (errors' & Herrs & Hshape).
  destruct Hshape as [_ _ _ Hch _ Hend].
  destruct Hend as [(v & n & Hr & _) | (_ & _ & _ & Hsum)]; [discriminate Hr|].
  split; [lia|]. rewrite Herrs, Hch, receive_all_after by lia. reflexivity.
Qed.

(** Whenever a call returns, every error the function returned has been
    handed to [LogFailure], in call order, when there is one (and nothing
    has been otherwise); and in bounded mode every one of them has been
    sent on the error channel, in unbounded mode none. *)
Theorem Backoff_reports_every_error fuel (conf : Config) curve fn (w : W)
    (res : option T) (errs : option (list E)) st :
  Curve conf = Some curve -> Func conf = Some fn ->
  0 <= MaxAttempts conf <= Int64.max_int ->
  Backoff ErrInvalidConfig fuel conf w = Returned (res, errs, st) ->
  logged (trace st) = match LogFailure conf with
                      | Some _ => call_errors (trace st)
                      | None => []
                      end
  /\ sent (trace st) =
       (if MaxAttempts conf =? 0 then [] else call_errors (trace st)).
Proof.
  intros Hc Hf Hn Hrun.
  destruct (Backoff_returned_shape fuel conf curve fn w res errs st Hc Hf Hn Hrun)
    as (errors' & _ & Hshape).
  destruct Hshape as [_ Hlg Hst _ _ _].
  split; [exact Hlg|]. rewrite Hst, sending_initial_channel.
  now destruct (MaxAttempts conf =? 0).
Qed.

(** The loop stops at the first result.  When a call returns a result, it
    is the result of the last call of the function, every call before it
    returned none, and the slice of errors is nil; when it returns no
    result, no call returned one and the slice is not nil. *)
Theorem Backoff_stops_at_first_result fuel (conf : Config) curve fn (w : W)
    (res : option T) (errs : option (list E)) st :
  Curve conf = Some curve -> Func conf = Some fn ->
  0 <= MaxAttempts conf <= Int64.max_int ->
  Backoff ErrInvalidConfig fuel conf w = Returned (res, errs, st) ->
  (exists (v : T) (n : nat),
      res = Some v /\ errs = None
      /\ map fst (calls (trace st)) = repeat None n ++ [Some v])
  \/ (res = None /\ (exists l, errs = Some l)
      /\ map fst (calls (trace st)) = repeat None (invocations (trace st))).
Proof.
  intros Hc Hf Hn Hrun.
  destruct (Backoff_returned_shape fuel conf curve fn w res errs st Hc Hf Hn Hrun)
    as (errors' & Herrs & Hshape).
  destruct Hshape as [_ _ _ _ _ Hend].
  destruct Hend as [(v & n & Hr & Hcalls) | (Hr & Hcalls & _)]; subst res.
  - left. exists v, n. auto.
  - right. split; [reflexivity|]. split; [|exact Hcalls].
    eexists. exact Herrs.
Qed.



(** The calls of a function that never returns a result have no result. *)
Lemma calls_without_result fn (l : list (option T * option E)) :
  (forall w : W, fst (fst (fn w)) = None) ->
  Forall (fun o => exists w : W, fst (fn w) = o) l ->
  map fst l = repeat None (length l).
Proof.
  intros Hfn Hl. induction Hl as [|o l (w0 & Ho) Hl IH]; [reflexivity|].
  cbn [map length repeat]. rewrite IH, <- Ho, Hfn. reflexivity.
Qed.

Lemma repeat_None_no_result (v : T) (m n : nat) :
  repeat (@None T) m = repeat None n ++ [Some v] -> False.
Proof.
  intros H. assert (Hin : In (Some v) (repeat (@None T) m)).
  { rewrite H. apply in_or_app. right. now left. }
  apply repeat_spec in Hin. discriminate Hin.
Qed.

(** In unbounded mode nothing but a result ends the call: as long as the
    function returns none, the loop goes on, whatever the fuel. *)
Theorem Backoff_unbounded_never_gives_up fuel (conf : Config) curve fn (w : W) :
  Curve conf = Some curve -> Func conf = Some fn ->
  MaxAttempts conf = 0 ->
  (forall w' : W, fst (fst (fn w')) = None) ->
  Backoff ErrInvalidConfig fuel conf w = OutOfFuel.
Proof.
  intros Hc Hf Hn Hfn.
  destruct (Backoff_shape fuel conf curve fn w Hc Hf)
    as [Hout | (r & errors' & st & _ & Hshape)];
    [rewrite Hn; unfold Int64.max_int; lia | exact Hout |].
  destruct Hshape as [_ _ _ _ Hcalls Hend]. exfalso.
  destruct Hend as [(v & n & _ & Hres) | (_ & _ & Hne & _)]; [|contradiction].
  rewrite (calls_without_result fn _ Hfn Hcalls) in Hres.
  exact (repeat_None_no_result _ _ _ Hres).
Qed.

(** A bounded call returns when the fuel is above [MaxAttempts]. *)
Lemma Backoff_bounded_not_out_of_fuel fuel (conf : Config) curve fn (w : W) :
  Curve conf = Some curve -> Func conf = Some fn ->
  0 < MaxAttempts conf <= Int64.max_int ->
  (Z.to_nat (MaxAttempts conf) < fuel)%nat ->
  Backoff ErrInvalidConfig fuel conf w <> OutOfFuel.
Proof.
  intros Hc Hf Hn Hfuel.
  rewrite (Backoff_valid ErrInvalidConfig fuel conf curve fn) by (auto; lia).
  unfold initial_channel.
  replace (MaxAttempts conf =? 0) with false by (symmetry; apply Z.eqb_neq; lia).
  destruct (backoff_loop_bounded curve fn (MaxAttempts conf) (LogFailure conf)
              ltac:(lia) ltac:(lia) (Z.to_nat (MaxAttempts conf)) 0
              {| cap := MaxAttempts conf; buf := [] |} fuel None w [])
    as (r & c' & w1 & tr & Hrun & _);
    [lia | lia | reflexivity | cbn [buf length]; lia | exact Hfuel |].
  rewrite Hrun. now destruct r.
Qed.

(** The run of a bounded call whose function never returns a result. *)
Lemma Backoff_without_result_run fuel (conf : Config) curve fn (w : W) :
  Curve conf = Some curve -> Func conf = Some fn ->
  0 < MaxAttempts conf <= Int64.max_int ->
  (forall w' : W, fst (fst (fn w')) = None) ->
  (Z.to_nat (MaxAttempts conf) < fuel)%nat ->
  exists st,
    Backoff ErrInvalidConfig fuel conf w =
      Returned (None, Some (call_errors (trace st)), st)
    /\ Z.of_nat (invocations (trace st)) = MaxAttempts conf
    /\ Forall (fun o => exists w' : W, fst (fn w') = o) (calls (trace st)).
Proof.
  intros Hc Hf Hn Hfn Hfuel.
  destruct (Backoff_shape fuel conf curve fn w Hc Hf ltac:(lia))
    as [Hout | (r & errors' & st & Hrun & Hshape)].
  { now apply (Backoff_bounded_not_out_of_fuel fuel conf curve fn w) in Hout. }
  destruct Hshape as [_ _ _ Hch Hcalls Hend].
  destruct Hend as [(v & n & _ & Hres) | (-> & _ & _ & Hsum)].
  { rewrite (calls_without_result fn _ Hfn Hcalls) in Hres.
    destruct (repeat_None_no_result _ _ _ Hres). }
  exists st. rewrite Hrun, Hch, receive_all_after by lia.
  split; [reflexivity|]. split; [lia|exact Hcalls].
Qed.

(** A bounded call whose function never returns a result (it may return an
    error, or nothing at all) returns, after exactly [MaxAttempts] calls, a
    nil result and the errors of those calls. *)
Theorem Backoff_without_result fuel (conf : Config) curve fn (w : W) :
  Curve conf = Some curve -> Func conf = Some fn ->
  0 < MaxAttempts conf <= Int64.max_int ->
  (forall w' : W, fst (fst (fn w')) = None) ->
  (Z.to_nat (MaxAttempts conf) < fuel)%nat ->
  exists st,
    Backoff ErrInvalidConfig fuel conf w =
      Returned (None, Some (call_errors (trace st)), st)
    /\ Z.of_nat (invocations (trace st)) = MaxAttempts conf.
Proof.
  intros Hc Hf Hn Hfn Hfuel.
  destruct (Backoff_without_result_run fuel conf curve fn w Hc Hf Hn Hfn Hfuel)
    as (st & Hrun & Hi & _).
  exists st. now split.
Qed.

(** A function that returns neither a result nor an error counts as a
    failure: a bounded call retries it [MaxAttempts] times and then returns
    a nil result with an empty slice of errors, which is not nil. *)
Theorem Backoff_nil_nil fuel (conf : Config) curve fn (w : W) :
  Curve conf = Some curve -> Func conf = Some fn ->
  0 < MaxAttempts conf <= Int64.max_int ->
  (forall w' : W, fst (fn w') = (None, None)) ->
  (Z.to_nat (MaxAttempts conf) < fuel)%nat ->
  exists st,
    Backoff ErrInvalidConfig fuel conf w = Returned (None, Some [], st)
    /\ Z.of_nat (invocations (trace st)) = MaxAttempts conf
    /\ logged (trace st) = [].
Proof.
  intros Hc Hf Hn Hfn Hfuel.
  destruct (Backoff_without_result_run fuel conf curve fn w Hc Hf Hn
              ltac:(intros w'; now rewrite Hfn) Hfuel)
    as (st & Hrun & Hi & Hcalls).
  assert (Herr : call_errors (trace st) = []).
  { rewrite call_errors_calls.
    induction Hcalls as [|o l (w0 & Ho) Hl IH]; [reflexivity|].
    cbn [flat_map]. rewrite IH, <- Ho, Hfn. reflexivity. }
  exists st. rewrite Herr in Hrun. split; [exact Hrun|]. split; [exact Hi|].
  destruct (Backoff_returned_shape fuel conf curve fn w _ _ st Hc Hf
              ltac:(lia) Hrun) as (errors' & _ & Hshape).
  destruct Hshape as [_ Hlg _ _ _ _]. rewrite Hlg, Herr.
  now destruct (LogFailure conf).
Qed.

End RunFacts.

(** ** Concrete runs, again *)

Example scenario_A_final_run :
  Backoff Scenario.ErrInvalidConfig 4 Scenario.scenario_A O =
  Returned (None, Some ["e1"; "e2"; "e3"]%string, Scenario.scenario_A_final).
Proof. vm_compute. reflexivity. Qed.

Lemma Backoff_negative_attempts_witness :
  MaxAttempts Scenario.negative_attempts < 0
  /\ Backoff Scenario.ErrInvalidConfig 4 Scenario.negative_attempts O = Panicked.
Proof.
  split; [reflexivity|].
  apply (Backoff_negative_attempts Scenario.ErrInvalidConfig 4
           Scenario.negative_attempts Scenario.half_steps
           Scenario.always_failing O);
    reflexivity.
Defined.

Lemma Backoff_never_blocks_witness :
  0 <= MaxAttempts Scenario.scenario_A <= Int64.max_int
  /\ (Backoff Scenario.ErrInvalidConfig 2 Scenario.scenario_A O = OutOfFuel
      \/ exists res errs st,
           Backoff Scenario.ErrInvalidConfig 2 Scenario.scenario_A O =
             Returned (res, errs, st)).
Proof.
  assert (Hn : 0 <= MaxAttempts Scenario.scenario_A <= Int64.max_int)
    by (unfold Int64.max_int; simpl; lia).
  split; [exact Hn|].
  exact (Backoff_never_blocks Scenario.ErrInvalidConfig 2 Scenario.scenario_A O Hn).
Defined.

Lemma Backoff_gives_up_witness :
  Backoff Scenario.ErrInvalidConfig 4 Scenario.scenario_A O =
    Returned (None, Some ["e1"; "e2"; "e3"]%string, Scenario.scenario_A_final)
  /\ Z.of_nat (invocations (trace Scenario.scenario_A_final)) =
       MaxAttempts Scenario.scenario_A
  /\ Some ["e1"; "e2"; "e3"]%string =
       Some (call_errors (trace Scenario.scenario_A_final)).
Proof.
  split; [exact scenario_A_final_run|].
  apply (Backoff_gives_up Scenario.ErrInvalidConfig 4 Scenario.scenario_A
           Scenario.half_steps Scenario.always_failing O
           (Some ["e1"; "e2"; "e3"]%string) Scenario.scenario_A_final);
    [reflexivity | reflexivity | unfold Int64.max_int; simpl; lia
    | exact scenario_A_final_run].
Defined.

Lemma Backoff_reports_every_error_witness :
  Backoff Scenario.ErrInvalidConfig 4 Scenario.scenario_A O =
    Returned (None, Some ["e1"; "e2"; "e3"]%string, Scenario.scenario_A_final)
  /\ logged (trace Scenario.scenario_A_final) =
       call_errors (trace Scenario.scenario_A_final)
  /\ sent (trace Scenario.scenario_A_final) =
       call_errors (trace Scenario.scenario_A_final).
Proof.
  split; [exact scenario_A_final_run|].
  apply (Backoff_reports_every_error Scenario.ErrInvalidConfig 4
           Scenario.scenario_A Scenario.half_steps Scenario.always_failing O
           None (Some ["e1"; "e2"; "e3"]%string) Scenario.scenario_A_final);
    [reflexivity | reflexivity | unfold Int64.max_int; simpl; lia
    | exact scenario_A_final_run].
Defined.

Lemma Backoff_stops_at_first_result_witness :
  Backoff Scenario.ErrInvalidConfig 4 Scenario.scenario_B O =
    Returned (Some Scenario.V, None, Scenario.scenario_B_final)
  /\ ((exists (v : Z) (n : nat),
         Some Scenario.V = Some v /\ @None (list string) = None
         /\ map fst (calls (trace Scenario.scenario_B_final)) =
              repeat None n ++ [Some v])
      \/ (Some Scenario.V = None /\ (exists l, @None (list string) = Some l)
          /\ map fst (calls (trace Scenario.scenario_B_final)) =
               repeat None (invocations (trace Scenario.scenario_B_final)))).
Proof.
  split; [exact scenario_B_run|].
  apply (Backoff_stops_at_first_result Scenario.ErrInvalidConfig 4
           Scenario.scenario_B Scenario.half_steps (Scenario.failing_until 2) O
           (Some Scenario.V) None Scenario.scenario_B_final);
    [reflexivity | reflexivity | unfold Int64.max_int; simpl; lia
    | exact scenario_B_run].
Defined.


Lemma Backoff_unbounded_never_gives_up_witness :
  MaxAttempts Scenario.hopeless = 0
  /\ Backoff Scenario.ErrInvalidConfig 7 Scenario.hopeless O = OutOfFuel.
Proof.
  split; [reflexivity|].
  apply (Backoff_unbounded_never_gives_up Scenario.ErrInvalidConfig 7
           Scenario.hopeless Scenario.half_steps Scenario.always_failing O);
    reflexivity.
Defined.

Lemma Backoff_without_result_witness :
  0 < MaxAttempts Scenario.scenario_A <= Int64.max_int
  /\ exists st,
       Backoff Scenario.ErrInvalidConfig 4 Scenario.scenario_A O =
         Returned (None, Some (call_errors (trace st)), st)
       /\ Z.of_nat (invocations (trace st)) = MaxAttempts Scenario.scenario_A.
Proof.
  assert (Hn : 0 < MaxAttempts Scenario.scenario_A <= Int64.max_int)
    by (unfold Int64.max_int; simpl; lia).
  split; [exact Hn|].
  apply (Backoff_without_result Scenario.ErrInvalidConfig 4 Scenario.scenario_A
           Scenario.half_steps Scenario.always_failing O);
    [reflexivity | reflexivity | exact Hn | reflexivity | simpl; lia].
Defined.

Lemma Backoff_nil_nil_witness :
  0 < MaxAttempts Scenario.three_silent <= Int64.max_int
  /\ exists st,
       Backoff Scenario.ErrInvalidConfig 4 Scenario.three_silent O =
         Returned (None, Some [], st)
       /\ Z.of_nat (invocations (trace st)) = MaxAttempts Scenario.three_silent
       /\ logged (trace st) = [].
Proof.
  assert (Hn : 0 < MaxAttempts Scenario.three_silent <= Int64.max_int)
    by (unfold Int64.max_int; simpl; lia).
  split; [exact Hn|].
  apply (Backoff_nil_nil Scenario.ErrInvalidConfig 4 Scenario.three_silent
           Scenario.half_steps Scenario.silent O);
    [reflexivity | reflexivity | exact Hn | reflexivity | simpl; lia].
Defined.

(** * More on durations and on the curves *)

(** ** Waits of less than a second *)

Lemma digits2_pos_bound (m : positive) :
  Z.pos m < 2 ^ Z.pos (digits2_pos m).
Proof.
  induction m as [m IH|m IH|]; cbn [digits2_pos].
  - rewrite Pos2Z.inj_succ, Z.pow_succ_r by lia. lia.
  - rewrite Pos2Z.inj_succ, Z.pow_succ_r by lia. lia.
  - reflexivity.
Qed.

(** The mantissa of a binary64 number has at most 53 bits. *)
Lemma valid_mantissa_bound (s : bool) (m : positive) (e : Z) :
  valid_binary (S754_finite s m e) = true -> Z.pos m < 2 ^ 53.
Proof.
  cbn [valid_binary].
  unfold SpecFloat.bounded, SpecFloat.canonical_mantissa, SpecFloat.fexp,
    SpecFloat.emin.
  rewrite andb_true_iff, Z.eqb_eq. intros [Hc _].
  pose proof (digits2_pos_bound m) as Hd.
  assert (Hle : Z.pos (digits2_pos m) <= 53) by (unfold prec in Hc; lia).
  eapply Z.lt_le_trans; [exact Hd|]. apply Z.pow_le_mono_r; lia.
Qed.

(** A curve value strictly between -1 and 1 gives no wait at all: the
    conversion to [Duration] makes it [0] before the multiplication by
    [time.Second]. *)
Theorem seconds_below_one (f : float) :
  (abs f <? 1)%float = true -> Time.seconds f = Some 0.
Proof.
  intros H. rewrite ltb_spec, abs_spec in H.
  pose proof (Prim2SF_valid f) as Hv.
  change (Prim2SF 1) with (S754_finite false 4503599627370496 (-52)) in H.
  unfold Time.seconds, F64.int64_of_float, F64.truncate.
  destruct (Prim2SF f) as [s|s| |s m e];
    [reflexivity | discriminate H | discriminate H | ].
  apply valid_mantissa_bound in Hv.
  unfold SFltb, SFabs, SFcompare in H.
  assert (Hlt : e < -52 \/ (e = -52 /\ Z.pos m < 4503599627370496)).
  { destruct (e ?= -52) eqn:He.
    - right. apply Z.compare_eq in He. split; [exact He|].
      destruct (Pos.compare_cont Eq m 4503599627370496) eqn:Hm;
        [discriminate H | | discriminate H].
      apply (proj1 (Pos.compare_lt_iff m 4503599627370496)) in Hm.
      exact (Pos2Z.pos_lt_pos _ _ Hm).
    - left. now rewrite Z.compare_lt_iff in He.
    - discriminate H. }
  clear H.
  assert (Hmag : (if 0 <=? e then Z.pos m * 2 ^ e else Z.pos m / 2 ^ (- e)) = 0).
  { replace (0 <=? e) with false by (symmetry; apply Z.leb_gt; lia).
    apply Z.div_small. split; [lia|].
    destruct Hlt as [He | [-> Hm]].
    - eapply Z.lt_le_trans; [exact Hv|]. apply Z.pow_le_mono_r; lia.
    - exact Hm. }
  rewrite Hmag. destruct s; reflexivity.
Qed.

Lemma seconds_below_one_witness :
  (abs 0.75 <? 1)%float = true /\ Time.seconds 0.75 = Some 0.
Proof.
  split; [reflexivity|]. apply (seconds_below_one 0.75). reflexivity.
Defined.

(** ** [Linear] at the first attempt *)

(** Under [Linear] with a finite multiplier the first attempt (index [0])
    is made without waiting. *)
Theorem Linear_first_attempt (mul : float) :
  F64.finite mul = true ->
  Time.seconds (F64.Linear (F64.float_of_int 0) mul) = Some 0.
Proof.
  unfold F64.finite, F64.Linear. intros Hm.
  change (F64.float_of_int 0) with 0%float.
  assert (H : exists b, Prim2SF (0 * mul) = S754_zero b).
  { rewrite mul_spec. unfold SF64mul, SFmul.
    change (Prim2SF 0) with (S754_zero false).
    destruct (Prim2SF mul) as [s|s| |s m e]; try discriminate Hm;
      eexists; reflexivity. }
  destruct H as [b Hb].
  unfold Time.seconds, F64.int64_of_float, F64.truncate. rewrite Hb.
  reflexivity.
Qed.

Lemma Linear_first_attempt_witness :
  F64.finite 0.5 = true
  /\ Time.seconds (F64.Linear (F64.float_of_int 0) 0.5) = Some 0.
Proof.
  split; [reflexivity|]. apply (Linear_first_attempt 0.5). reflexivity.
Defined.

(** ** The midpoint identity in binary64 *)

Lemma Logistic_midpoint_binary64_witness :
  F64.finite 2 = true /\ F64.finite 3 = true
  /\ F64.Logistic (fun x => 1 + x)%float 3 2 10 3 = (10 / (1 + F64.E))%float.
Proof.
  split; [reflexivity|]. split; [reflexivity|].
  apply (Logistic_midpoint_binary64 (fun x => 1 + x)%float 2 10 3);
    reflexivity.
Defined.

(** ** The shape of the curves, over the reals *)

Section CurveShape.

Local Open Scope R_scope.










End CurveShape.




